(** * A shallow embedding of the rulex/pomsky front end

    This development models, from the Rust sources, the parts of the
    rulex/pomsky compiler that the specification talks about:
    - [Rulex]: the AST of rulex-lib, the [needs_parens_before_repetition]
      predicate, [Repetition::comp], [Alternation::comp] and
      [Alternation::new_rulex], [RepetitionKind::try_from] and
      [Grapheme::comp];
    - [Pomsky]: the lexer [tokenize] of pomsky-lib and the diagnostic
      engine [Diagnostic::from_parse_error] / [from_parse_errors] with the
      help helpers.

    Rust's [&mut String] output buffers and [&mut CompileState] are threaded
    explicitly; a function that can panic returns [option] ([None] is the
    panic). *)

From Stdlib Require Import List String Ascii NArith Bool Lia Wf_nat PeanoNat.
Import ListNotations.

Set Warnings "-register-all".

(** [Result<T, E>] *)
Inductive Result (A E : Type) : Type :=
| Ok (a : A)
| Err (e : E).
Arguments Ok {A E} a.
Arguments Err {A E} e.

(** Modelled from the spec: [Span] (span.rs is not part of the sources).
    A half-open byte range [[start, end)], or the distinguished empty span;
    [range()] returns [None] for the empty span. *)
Inductive Span : Type :=
| SpanRange (start stop : N)
| SpanEmpty.

Definition span_range (s : Span) : option (N * N) :=
  match s with
  | SpanRange a b => Some (a, b)
  | SpanEmpty => None
  end.

(** [Span::new] and [Span::from(Range)] *)
Definition span_new (a b : N) : Span := SpanRange a b.

(** [Span::range_unchecked] *)
Definition span_range_unchecked (s : Span) : N * N :=
  match s with
  | SpanRange a b => (a, b)
  | SpanEmpty => (0%N, 0%N)
  end.

(** Decimal formatting of an unsigned integer, as [write!("{}")] does. *)
Fixpoint digits_aux (fuel : nat) (n : N) (acc : string) : string :=
  match fuel with
  | O => acc
  | S f =>
      let acc' := String (ascii_of_N (48 + n mod 10)) acc in
      if (n <? 10)%N then acc' else digits_aux f (n / 10) acc'
  end.

Definition display_u32 (n : N) : string := digits_aux (S (N.size_nat n)) n "".

Definition u32_MAX : N := 4294967295.

(** ** rulex-lib *)
Module Rulex.

Local Open Scope string_scope.

(** [RegexFlavor] *)
Inductive RegexFlavor : Type :=
| Pcre | Python | Java | JavaScript | DotNet | Ruby | Rust.

Definition flavor_eqb (a b : RegexFlavor) : bool :=
  match a, b with
  | Pcre, Pcre | Python, Python | Java, Java | JavaScript, JavaScript
  | DotNet, DotNet | Ruby, Ruby | Rust, Rust => true
  | _, _ => false
  end.

(** [CompileOptions] (the parse options play no role in code generation) *)
Record CompileOptions : Type := { flavor : RegexFlavor }.

(** [error::Feature] *)
Inductive Feature : Type :=
| Feature_Grapheme
| Feature_Other (name : string).

(** [CompileErrorKind]: [Unsupported(Feature, RegexFlavor)] and the other
    kinds, which no claim distinguishes. *)
Inductive CompileErrorKind : Type :=
| Unsupported (f : Feature) (fl : RegexFlavor)
| OtherCompileError (name : string).

Record CompileError : Type := { ce_kind : CompileErrorKind; ce_span : Span }.

(** [CompileErrorKind::at] *)
Definition at_span (k : CompileErrorKind) (s : Span) : CompileError :=
  {| ce_kind := k; ce_span := s |}.

Definition CompileResult : Type := Result unit CompileError.

(** [Greedy] *)
Inductive Greedy : Type := Yes | No.

(** [RepetitionKind] *)
Record RepetitionKind : Type := {
  lower_bound : N;
  upper_bound : option N
}.

(** [RepetitionKind::get_range] *)
Definition get_range (k : RepetitionKind) : N * option N :=
  (lower_bound k, upper_bound k).

(** [RepetitionError] *)
Inductive RepetitionError : Type := NotAscending.

(** [impl TryFrom<(u32, Option<u32>)> for RepetitionKind] *)
Definition try_from (p : N * option N) : Result RepetitionKind RepetitionError :=
  let (lower, upper) := p in
  if (match upper with Some u => u | None => u32_MAX end <? lower)%N
  then Err NotAscending
  else Ok {| lower_bound := lower; upper_bound := upper |}.

(** [RepetitionKind::zero_inf], [one_inf], [zero_one] and [fixed] *)
Definition zero_inf : RepetitionKind := {| lower_bound := 0; upper_bound := None |}.
Definition one_inf : RepetitionKind := {| lower_bound := 1; upper_bound := None |}.
Definition zero_one : RepetitionKind := {| lower_bound := 0; upper_bound := Some 1%N |}.
Definition fixed (n : N) : RepetitionKind := {| lower_bound := n; upper_bound := Some n |}.

(** Modelled from the spec: [CharClass] (char_class.rs is not part of the
    sources): a possibly negated set built from items (code points, ranges,
    named classes); [add_all] forms the union of the items, [default] is
    the empty, non-negated class. *)
Inductive ClassItem : Type :=
| ItemCodePoint (c : N)
| ItemRange (lo hi : N)
| ItemNamed (name : string).

Record char_class : Type := {
  negative : bool;
  items : list ClassItem
}.

Definition char_class_default : char_class := {| negative := false; items := [] |}.

Definition is_negated (c : char_class) : bool := negative c.

Definition add_all (self other : char_class) : char_class :=
  {| negative := negative self; items := items self ++ items other |}.

(** Modelled from the spec: [Boundary] *)
Inductive boundary : Type := Start | End | Word | NotWord.

Section Codegen.

(** The compile state, groups, and the compilers of literals, character
    classes, groups and boundaries live outside the sources; they are
    parameters of the development. *)
Context {CompileState : Type}.
Context {group : Type}.

(** [enum Rulex] *)
Inductive Rulex : Type :=
| Literal (l : string)
| CharClass (c : char_class)
| Group (g : group)
| Alternation (rules : list Rulex)
| Repetition (rule : Rulex) (kind : RepetitionKind) (greedy : Greedy)
| Boundary (b : boundary).

(** The signature of [Compile::comp]: options, state and buffer in;
    final state, final buffer and result out. *)
Definition comp_fn : Type :=
  CompileOptions -> CompileState -> string -> CompileState * string * CompileResult.

Variable comp_literal : string -> comp_fn.
Variable comp_char_class : char_class -> comp_fn.
Variable comp_group : group -> comp_fn.
Variable comp_boundary : boundary -> comp_fn.
Variable group_needs_parens_before_repetition : group -> bool.

(** [Rulex::needs_parens_before_repetition] *)
Definition needs_parens_before_repetition (r : Rulex) : bool :=
  match r with
  | Literal _ | Alternation _ => true
  | Group g => group_needs_parens_before_repetition g
  | CharClass _ => false
  | Repetition _ _ _ => false
  | Boundary _ => false
  end.

(** Modelled from the spec: [Parens::comp] (compile.rs is not part of the
    sources): the inner rule wrapped in [(?:...)]. *)
Definition parens_comp (inner : comp_fn) : comp_fn :=
  fun o st buf =>
    match inner o st (buf ++ "(?:") with
    | (st', buf', Ok _) => (st', buf' ++ ")", Ok tt)
    | (st', buf', Err e) => (st', buf', Err e)
    end.

(** [buf.pop()] *)
Fixpoint string_pop (s : string) : string :=
  match s with
  | EmptyString => EmptyString
  | String _ EmptyString => EmptyString
  | String c s' => String c (string_pop s')
  end.

(** The loop of [Alternation::comp]: each rule followed by ['|']. *)
Fixpoint alternation_loop (rules : list comp_fn) : comp_fn :=
  fun o st buf =>
    match rules with
    | [] => (st, buf, Ok tt)
    | r :: rest =>
        match r o st buf with
        | (st', buf', Ok _) => alternation_loop rest o st' (buf' ++ "|")
        | (st', buf', Err e) => (st', buf', Err e)
        end
    end.

(** [Alternation::comp] *)
Definition alternation_comp (rules : list comp_fn) : comp_fn :=
  fun o st buf =>
    match alternation_loop rules o st buf with
    | (st', buf', Ok _) =>
        (st', (match rules with [] => buf' | _ => string_pop buf' end), Ok tt)
    | (st', buf', Err e) => (st', buf', Err e)
    end.

(** The quantifier written by [Repetition::comp]; the arms in source order. *)
Definition repetition_quantifier (k : RepetitionKind) : string :=
  match lower_bound k, upper_bound k with
  | N0, Some (Npos xH) => "?"
  | N0, None => "*"
  | Npos xH, None => "+"
  | lower_bound, None => "{" ++ display_u32 lower_bound ++ ",}"
  | lower_bound, Some upper_bound =>
      if (lower_bound =? upper_bound)%N
      then "{" ++ display_u32 lower_bound ++ "}"
      else match lower_bound with
           | N0 => "{," ++ display_u32 upper_bound ++ "}"
           | _ => "{" ++ display_u32 lower_bound ++ "," ++ display_u32 upper_bound ++ "}"
           end
  end.

(** [Repetition::comp], given whether the child needs parentheses and the
    child's own compiler. *)
Definition repetition_comp (needs_parens : bool) (rule : comp_fn)
    (kind : RepetitionKind) (greedy : Greedy) : comp_fn :=
  fun o st buf =>
    match (if needs_parens then parens_comp rule else rule) o st buf with
    | (st', buf', Ok _) =>
        let buf'' := buf' ++ repetition_quantifier kind in
        (st', (match greedy with No => buf'' ++ "?" | Yes => buf'' end), Ok tt)
    | (st', buf', Err e) => (st', buf', Err e)
    end.

(** [impl Compile for Rulex] *)
Fixpoint comp (r : Rulex) : comp_fn :=
  match r with
  | Literal l => comp_literal l
  | CharClass c => comp_char_class c
  | Group g => comp_group g
  | Alternation rules => alternation_comp (map comp rules)
  | Repetition rule kind greedy =>
      repetition_comp (needs_parens_before_repetition rule) (comp rule) kind greedy
  | Boundary b => comp_boundary b
  end.

(** [Alternation::new_rulex] *)
Definition is_non_negated_class (r : Rulex) : bool :=
  match r with
  | CharClass c => negb (is_negated c)
  | _ => false
  end.

Definition new_rulex (rules : list Rulex) : Rulex :=
  if forallb is_non_negated_class rules
  then CharClass (fold_left (fun cc rule =>
                    match rule with
                    | CharClass c => add_all cc c
                    | _ => cc (* unreachable!() *)
                    end) rules char_class_default)
  else Alternation rules.

(** [CompileState::new()] (compile.rs is not part of the sources). *)
Variable compile_state_new : CompileState.

(** [Rulex::compile]: [comp] from a fresh state into an empty buffer. *)
Definition compile (r : Rulex) (o : CompileOptions) : Result string CompileError :=
  match comp r o compile_state_new "" with
  | (_, buf, Ok _) => Ok buf
  | (_, _, Err e) => Err e
  end.

(** [CharClass::negate] (char_class.rs is not part of the sources). *)
Variable char_class_negate : char_class -> char_class.

(** [Rulex::negate] *)
Definition negate (r : Rulex) : option Rulex :=
  match r with
  | CharClass c => Some (CharClass (char_class_negate c))
  | Boundary b =>
      match b with
      | Word => Some (Boundary NotWord)
      | NotWord => Some (Boundary Word)
      | Start | End => None
      end
  | _ => None
  end.

End Codegen.

Section CompileProps.
Context {CompileState : Type} {group : Type}.

(** A compiler that only appends to the buffer, and appends the same text
    whatever the buffer already holds. *)
Definition append_only (f : @comp_fn CompileState) : Prop :=
  forall o st buf, f o st buf = (let '(st', out, r) := f o st "" in (st', buf ++ out, r)).


(** Induction on [Rulex] through the rules of an alternation. *)
Definition Rulex_nested_ind (P : @Rulex group -> Prop)
    (HLit : forall l, P (Literal l)) (HCC : forall c, P (CharClass c))
    (HGr : forall g, P (Group g))
    (HAlt : forall rules, Forall P rules -> P (Alternation rules))
    (HRep : forall r k g, P r -> P (Repetition r k g))
    (HB : forall b, P (Boundary b)) : forall r, P r :=
  fix go (r : Rulex) : P r :=
    match r with
    | Literal l => HLit l
    | CharClass c => HCC c
    | Group g => HGr g
    | Alternation rules =>
        HAlt rules ((fix go_list (l : list Rulex) : Forall P l :=
                       match l with
                       | [] => Forall_nil P
                       | x :: l' => @Forall_cons _ P x l' (go x) (go_list l')
                       end) rules)
    | Repetition r k g => HRep r k g (go r)
    | Boundary b => HB b
    end.

End CompileProps.

(** [struct Grapheme] and [Grapheme::comp] *)
Record Grapheme : Type := { grapheme_span : Span }.

Definition grapheme_comp {CompileState : Type} (g : Grapheme) (o : CompileOptions)
    (st : CompileState) (buf : string) : CompileState * string * CompileResult :=
  if flavor_eqb (flavor o) JavaScript
  then (st, buf, Err (at_span (Unsupported Feature_Grapheme (flavor o)) (grapheme_span g)))
  else (st, buf ++ "\X", Ok tt).

(** Modelled from the spec: membership in a character class. A named class
    is decided by [named_mem]; a negated class matches the complement. *)
Definition item_matches (named_mem : string -> N -> bool) (c : N) (i : ClassItem) : bool :=
  match i with
  | ItemCodePoint x => (x =? c)%N
  | ItemRange lo hi => (lo <=? c)%N && (c <=? hi)%N
  | ItemNamed name => named_mem name c
  end.

Definition char_class_matches (named_mem : string -> N -> bool) (cc : char_class) (c : N) : bool :=
  xorb (negative cc) (existsb (item_matches named_mem c) (items cc)).

(** The reading of the specification: the canonical quantifier is given by
    the first rule, in the spec's order, whose condition holds. *)
Definition spec_quantifier_rules (k : RepetitionKind) : list (bool * string) :=
  let n := lower_bound k in
  let infinite := match upper_bound k with None => true | Some _ => false end in
  let m := match upper_bound k with Some m => m | None => 0%N end in
  [ ((n =? 0)%N && negb infinite && (m =? 1)%N, "?");
    ((n =? 0)%N && infinite, "*");
    ((n =? 1)%N && infinite, "+");
    (infinite, "{" ++ display_u32 n ++ ",}");
    (negb infinite && (m =? n)%N, "{" ++ display_u32 n ++ "}");
    ((n =? 0)%N, "{," ++ display_u32 m ++ "}");
    (true, "{" ++ display_u32 n ++ "," ++ display_u32 m ++ "}") ].

Definition spec_quantifier (k : RepetitionKind) : string :=
  match find fst (spec_quantifier_rules k) with
  | Some (_, q) => q
  | None => ""
  end.

Definition lazy_suffix (g : Greedy) : string :=
  match g with No => "?" | Yes => "" end.

(** Appending a suffix to the buffer after a successful step. *)
Definition then_push {CompileState : Type}
    (r : CompileState * string * CompileResult) (suffix : string)
    : CompileState * string * CompileResult :=
  match r with
  | (st', buf', Ok _) => (st', buf' ++ suffix, Ok tt)
  | (st', buf', Err e) => (st', buf', Err e)
  end.

Section ClassUnion.
Context {group : Type}.

Definition class_items (r : @Rulex group) : list ClassItem :=
  match r with CharClass c => items c | _ => [] end.

Definition rule_matches (named_mem : string -> N -> bool) (x : N) (r : @Rulex group) : bool :=
  match r with CharClass c => char_class_matches named_mem c x | _ => false end.

Definition non_negated_class (r : @Rulex group) : Prop :=
  exists c, r = CharClass c /\ is_negated c = false.

End ClassUnion.

End Rulex.

(** ** pomsky-lib *)
Module Pomsky.

Local Open Scope N_scope.

(** *** Rust strings

    A [&str] is modelled as the list of its Unicode scalar values; byte
    offsets and lengths are the UTF-8 sizes of these characters. *)
Definition char : Type := N.
Definition str : Type := list char.

(** A string literal written with ASCII characters. *)
Definition u (s : string) : str := map (fun a => N_of_ascii a) (list_ascii_of_string s).

Definition nl : str := [10%N].

(** [char::len_utf8] *)
Definition len_utf8 (c : char) : N :=
  if (c <? 128)%N then 1 else if (c <? 2048)%N then 2
  else if (c <? 65536)%N then 3 else 4.

(** [str::len]: the List.length in bytes. *)
Fixpoint blen (s : str) : N :=
  match s with
  | [] => 0
  | c :: s' => len_utf8 c + blen s'
  end.

(** [char::is_whitespace]: the Unicode [White_Space] property. *)
Definition is_whitespace (c : char) : bool :=
  ((9 <=? c) && (c <=? 13))%N || (c =? 32)%N || (c =? 133)%N || (c =? 160)%N
  || (c =? 5760)%N || ((8192 <=? c) && (c <=? 8202))%N || (c =? 8232)%N
  || (c =? 8233)%N || (c =? 8239)%N || (c =? 8287)%N || (c =? 12288)%N.

Definition is_ascii_digit (c : char) : bool := ((48 <=? c) && (c <=? 57))%N.

Definition is_ascii_hexdigit (c : char) : bool :=
  is_ascii_digit c || ((65 <=? c) && (c <=? 70))%N || ((97 <=? c) && (c <=? 102))%N.

Definition is_ascii_alphanumeric (c : char) : bool :=
  is_ascii_digit c || ((65 <=? c) && (c <=? 90))%N || ((97 <=? c) && (c <=? 122))%N.

Definition char_in (cs : list char) (c : char) : bool := existsb (N.eqb c) cs.

(** [str::starts_with] *)
Fixpoint starts_with (pat s : str) : bool :=
  match pat, s with
  | [], _ => true
  | p :: pat', c :: s' => (p =? c)%N && starts_with pat' s'
  | _ :: _, [] => false
  end.

(** [str::trim_start_matches] with a character predicate. *)
Fixpoint trim_start_matches (p : char -> bool) (s : str) : str :=
  match s with
  | c :: s' => if p c then trim_start_matches p s' else s
  | [] => []
  end.

(** [str::trim_end_matches] with a character predicate. *)
Definition trim_end_matches (p : char -> bool) (s : str) : str :=
  rev (trim_start_matches p (rev s)).

(** [str::trim_matches] with a character predicate. *)
Definition trim_matches (p : char -> bool) (s : str) : str :=
  trim_end_matches p (trim_start_matches p s).

(** [str::trim_start], [str::trim] *)
Definition trim_start (s : str) : str := trim_start_matches is_whitespace s.
Definition trim (s : str) : str := trim_matches is_whitespace s.

(** [str::trim_start_matches] with a string pattern: the prefix is removed
    as often as it occurs. *)
Fixpoint trim_start_matches_str_aux (fuel : nat) (pat s : str) : str :=
  match fuel with
  | O => s
  | S f =>
      match pat with
      | [] => s
      | _ => if starts_with pat s
             then trim_start_matches_str_aux f pat (skipn (List.length pat) s)
             else s
      end
  end.

Definition trim_start_matches_str (pat s : str) : str :=
  trim_start_matches_str_aux (S (List.length s)) pat s.

(** [str::find] with a character predicate; the result is a character
    index, at which the byte index of the source is a character boundary. *)
Fixpoint find (p : char -> bool) (s : str) : option nat :=
  match s with
  | [] => None
  | c :: s' => if p c then Some O else option_map S (find p s')
  end.

(** [str::split_at] at a character boundary. *)
Definition split_at (i : nat) (s : str) : str * str := (firstn i s, skipn i s).

(** [str::contains] with a character. *)
Definition contains (c : char) (s : str) : bool := existsb (N.eqb c) s.

(** [str::replace] of every character matching [p] by [by_]. *)
Definition replace (p : char -> bool) (by_ : str) (s : str) : str :=
  flat_map (fun c => if p c then by_ else [c]) s.

(** The character index of byte offset [n], if [n] is a character boundary
    of [s] (slicing elsewhere panics). *)
Fixpoint byte_to_char_index (n : N) (s : str) : option nat :=
  if (n =? 0)%N then Some O
  else match s with
       | [] => None
       | c :: s' =>
           if (len_utf8 c <=? n)%N
           then option_map S (byte_to_char_index (n - len_utf8 c) s')
           else None
       end.

(** [&s[a..b]]: [None] is the panic of an out-of-range or
    non-boundary slice. *)
Definition slice (a b : N) (s : str) : option str :=
  match byte_to_char_index a s, byte_to_char_index b s with
  | Some i, Some j => if Nat.leb i j then Some (skipn i (firstn j s)) else None
  | _, _ => None
  end.

(** [&s[a..]] *)
Definition slice_from (a : N) (s : str) : option str := slice a (blen s) s.

(** *** Errors *)

(** [ParseErrorMsg]: the hints the lexer attaches to foreign syntax. *)
Inductive ParseErrorMsg : Type :=
| Caret | CaretInGroup | Dollar
| GroupNonCapturing | GroupLookahead | GroupLookaheadNeg | GroupLookbehind
| GroupLookbehindNeg | GroupComment | GroupNamedCapture | GroupPcreBackreference
| GroupAtomic | GroupConditional | GroupBranchReset | GroupSubroutineCall
| GroupOther | UnclosedString
| Backslash | BackslashU4 | BackslashX2 | BackslashUnicode | BackslashGK
| BackslashProperty.

(** [CharClassError], with the variants the diagnostics distinguish. *)
Inductive CharClassError : Type :=
| UnknownNamedClass (found : str) (similar : option str)
| DescendingRange (lo hi : char)
| Empty
| CharClassErrorOther.

(** [CharStringError] *)
Inductive CharStringError : Type :=
| TooManyCodePoints
| CharStringErrorOther.

(** pomsky-lib's [RepetitionError] *)
Inductive RepetitionError : Type :=
| NotAscending
| QuestionMarkAfterRepetition.

(** [ParseErrorKind] (with the variants the diagnostics distinguish; all
    others fall under [ParseErrorKindOther]) and [ParseError]. *)
Inductive ParseErrorKind : Type :=
| LexErrorWithMessage (msg : ParseErrorMsg)
| RangeIsNotIncreasing
| Dot
| CharClass (e : CharClassError)
| CharString (e : CharStringError)
| KeywordAfterLet (kw : str)
| UnallowedDoubleNot
| LetBindingExists
| Repetition (e : RepetitionError)
| InvalidEscapeInStringAt (offset : N)
| RecursionLimit
| Multiple (errors : list ParseError)
| ParseErrorKindOther (name : str)
with ParseError : Type :=
| MkParseError (kind : ParseErrorKind) (span : Span).

Definition pe_kind (e : ParseError) : ParseErrorKind :=
  match e with MkParseError k _ => k end.
Definition pe_span (e : ParseError) : Span :=
  match e with MkParseError _ s => s end.

(** pomsky-lib's [CompileErrorKind], with the variants the diagnostics
    distinguish, and [CompileError]. *)
Inductive CompileErrorKind : Type :=
| CEParseError (kind : ParseErrorKind)
| UnknownVariable (found : str) (similar : option str)
| UnknownReferenceName (found : str) (similar : option str)
| CompileErrorKindOther (name : str).

Record CompileError : Type := { ce_kind : CompileErrorKind; ce_span : Span }.

(** [Severity] and [Diagnostic] *)
Inductive Severity : Type := SevError | SevWarning.

Record Diagnostic : Type := {
  severity : Severity;
  msg : str;
  code : option str;
  source_code : option str;
  help : option str;
  span : Span
}.

(** *** Help messages *)

(** [get_named_capture_help] *)
Definition get_named_capture_help (s : str) : option (option str) :=
  let name := trim_matches (char_in (u "<>'"))
                (trim_start_matches (N.eqb 80) (trim_start_matches_str (u "(?") s)) in
  if contains 45 name
  then Some (Some (u "Balancing groups are not supported"))
  else Some (Some (u "Named capturing groups use the `:name(...)` syntax. Try `:"
                   ++ name ++ u "(...)` instead")).

(** [get_pcre_backreference_help] *)
Definition get_pcre_backreference_help (s : str) : option (option str) :=
  let name := trim_end_matches (N.eqb 41) (trim_start_matches_str (u "(?P=") s) in
  Some (Some (u "Backreferences use the `::name` syntax. Try `::" ++ name ++ u "` instead")).

(** [get_backslash_help]; the [assert!] panics unless the slice starts
    with a backslash. *)
Definition get_backslash_help (s : str) : option (option str) :=
  if negb (starts_with (u "\") s) then None
  else
    match skipn 1 s with
    | [] => Some None
    | c :: _ =>
        Some (
          if (c =? 98)%N then Some (u "Replace `\b` with `%` to match a word boundary")
          else if (c =? 66)%N then Some (u "Replace `\B` with `!%` to match a place without a word boundary")
          else if (c =? 65)%N then Some (u "Replace `\A` with `Start` to match the start of the string")
          else if (c =? 122)%N then Some (u "Replace `\z` with `End` to match the end of the string")
          else if (c =? 90)%N then
            Some (u "\Z is not supported. Use `End` to match the end of the string." ++ nl
                  ++ u "Note, however, that `End` doesn't match the position before the final newline.")
          else if (c =? 78)%N then Some (u "Replace `\N` with `![n]`")
          else if (c =? 88)%N then Some (u "Replace `\X` with `Grapheme`")
          else if (c =? 82)%N then Some (u "Replace `\R` with `([r] [n] | [v])`")
          else if (c =? 68)%N then Some (u "Replace `\D` with `[!d]`")
          else if (c =? 87)%N then Some (u "Replace `\W` with `[!w]`")
          else if (c =? 83)%N then Some (u "Replace `\S` with `[!s]`")
          else if (c =? 86)%N then Some (u "Replace `\V` with `![v]`")
          else if (c =? 72)%N then Some (u "Replace `\H` with `![h]`")
          else if (c =? 71)%N then Some (u "Match attempt anchors are not supported")
          else if char_in (u "aefnrthvdws") c then
            Some (u "Replace `\" ++ [c] ++ u "` with `[" ++ [c] ++ u "]`")
          else if (c =? 48)%N then Some (u "Replace `\0` with `U+00`")
          else if ((49 <=? c) && (c <=? 55))%N then
            Some (u "If this is a backreference, replace it with `::" ++ [c] ++ u "`." ++ nl
                  ++ u "If this is an octal escape, replace it with `U+0" ++ [c] ++ u "`.")
          else if ((49 <=? c) && (c <=? 57))%N then
            Some (u "Replace `\" ++ [c] ++ u "` with `::" ++ [c] ++ u "`")
          else None)
    end.

(** [get_backslash_help_u4] and [get_backslash_help_x2] *)
Definition get_backslash_help_u4 (s : str) : option (option str) :=
  match slice_from 2 s with
  | Some hex => Some (Some (u "Try `U+" ++ hex ++ u "` instead"))
  | None => None
  end.

Definition get_backslash_help_x2 (s : str) : option (option str) :=
  match slice_from 2 s with
  | Some hex => Some (Some (u "Try `U+" ++ hex ++ u "` instead"))
  | None => None
  end.

(** [get_backslash_help_unicode] *)
Definition get_backslash_help_unicode (s : str) : option (option str) :=
  match slice_from 2 s with
  | Some rest =>
      let hex := trim_matches (char_in (u "{}")) rest in
      Some (Some (u "Try `U+" ++ hex ++ u "` instead"))
  | None => None
  end.

(** [get_backslash_gk_help] *)
Definition get_backslash_gk_help (s : str) : option (option str) :=
  match slice_from 2 s with
  | Some rest =>
      let name := trim_matches (char_in (u "{}<>'")) rest in
      if list_eq_dec N.eq_dec name (u "0")
      then Some (Some (u "Recursion is currently not supported"))
      else Some (Some (u "Replace `" ++ s ++ u "` with `::" ++ name ++ u "`"))
  | None => None
  end.

(** [get_backslash_property_help] *)
Definition get_backslash_property_help (s : str) : option (option str) :=
  let is_negative :=
    (starts_with (u "\P") s && negb (starts_with (u "\P{^") s)) || starts_with (u "\p{^") s in
  match slice_from 2 s with
  | Some rest =>
      let name := replace (char_in (u "+-")) (u "_") (trim_matches (char_in (u "{}^")) rest) in
      if is_negative
      then Some (Some (u "Replace `" ++ s ++ u "` with `[!" ++ name ++ u "]`"))
      else Some (Some (u "Replace `" ++ s ++ u "` with `[" ++ name ++ u "]`"))
  | None => None
  end.

(** [get_parse_error_msg_help] *)
Definition get_parse_error_msg_help (slice : str) (m : ParseErrorMsg) : option (option str) :=
  match m with
  | Caret => Some (Some (u "Use `Start` to match the start of the string"))
  | CaretInGroup => Some (Some (u "Use `![...]` to negate a character class"))
  | Dollar => Some (Some (u "Use `End` to match the end of the string"))
  | GroupNonCapturing => Some (Some (u "Non-capturing groups are just parentheses: `(...)`. Capturing groups use the `:(...)` syntax."))
  | GroupLookahead => Some (Some (u "Lookahead uses the `>>` syntax. For example, `>> 'bob'` matches if the position is followed by bob."))
  | GroupLookaheadNeg => Some (Some (u "Negative lookahead uses the `!>>` syntax. For example, `!>> 'bob'` matches if the position is not followed by bob."))
  | GroupLookbehind => Some (Some (u "Lookbehind uses the `<<` syntax. For example, `<< 'bob'` matches if the position is preceded with bob."))
  | GroupLookbehindNeg => Some (Some (u "Negative lookbehind uses the `!<<` syntax. For example, `!<< 'bob'` matches if the position is not preceded with bob."))
  | GroupComment => Some (Some (u "Comments start with `#` and go until the end of the line."))
  | GroupNamedCapture => get_named_capture_help slice
  | GroupPcreBackreference => get_pcre_backreference_help slice
  | Backslash => get_backslash_help slice
  | BackslashU4 => get_backslash_help_u4 slice
  | BackslashX2 => get_backslash_help_x2 slice
  | BackslashUnicode => get_backslash_help_unicode slice
  | BackslashGK => get_backslash_gk_help slice
  | BackslashProperty => get_backslash_property_help slice
  | GroupAtomic | GroupConditional | GroupBranchReset | GroupSubroutineCall
  | GroupOther | UnclosedString => Some None
  end.

(** The help of [RangeIsNotIncreasing] and [DescendingRange]: split at the
    first ['-'] ([unwrap] panics without one), drop the dashes that start
    the second part, and swap the trimmed parts. *)
Definition switch_help (prefix slice : str) : option (option str) :=
  match find (N.eqb 45) slice with
  | None => None
  | Some dash_pos =>
      let (part1, part2) := split_at dash_pos slice in
      let part2 := trim_start_matches (N.eqb 45) part2 in
      Some (Some (prefix ++ trim part2 ++ u "-" ++ trim part1))
  end.

(** *** The diagnostic engine *)
Section Diagnostics.

(** [error.kind.to_string()] (the [Display] impls are not part of the
    sources) and whether the [suggestions] feature is enabled. *)
Variable kind_to_string : ParseErrorKind -> str.
Variable feature_suggestions : bool.

(** The byte range and the slice of the source that [from_parse_error]
    reports: the error's span, or the whole source for the empty span. *)
Definition error_range (e : ParseError) (source_code : str) : N * N :=
  match span_range (pe_span e) with
  | Some r => r
  | None => (0%N, blen source_code)
  end.

Definition error_slice (e : ParseError) (source_code : str) : option str :=
  let (a, b) := error_range e source_code in slice a b source_code.

(** [Diagnostic::from_parse_error] *)
Definition from_parse_error (e : ParseError) (source_code : str) : option Diagnostic :=
  let (a, b) := error_range e source_code in
  match slice a b source_code with
  | None => None
  | Some slice =>
      let span := span_new a b in
      let help_span : option (option str * Span) :=
        match pe_kind e with
        | LexErrorWithMessage m =>
            option_map (fun h => (h, span)) (get_parse_error_msg_help slice m)
        | RangeIsNotIncreasing =>
            option_map (fun h => (h, span)) (switch_help (u "Switch the numbers: ") slice)
        | Dot =>
            Some (Some (u "The dot is deprecated. Use `Codepoint` to match any code point, or `![n]` to exclude line breaks"), span)
        | CharClass (UnknownNamedClass _ (Some similar)) =>
            if feature_suggestions
            then Some (Some (u "Perhaps you meant `" ++ similar ++ u "`"), span)
            else Some (None, span)
        | CharClass (DescendingRange _ _) =>
            option_map (fun h => (h, span)) (switch_help (u "Switch the characters: ") slice)
        | CharClass Empty =>
            Some (Some (u "You can use `![s !s]` to match nothing, and `C` to match anything"), span)
        | CharString TooManyCodePoints =>
            if forallb is_ascii_digit (trim_matches (char_in [34%N; 39%N]) slice)
            then Some (Some (u "Try a `range` expression instead:" ++ nl
                             ++ u "https://pomsky-lang.org/docs/language-tour/ranges/"), span)
            else Some (None, span)
        | KeywordAfterLet _ => Some (Some (u "Use a different variable name"), span)
        | UnallowedDoubleNot => Some (Some (u "Remove 2 exclamation marks"), span)
        | LetBindingExists => Some (Some (u "Use a different name"), span)
        | Repetition QuestionMarkAfterRepetition =>
            Some (Some (u "If you meant to make the repetition lazy, append the `lazy` keyword instead." ++ nl
                        ++ u "If this is intentional, consider adding parentheses around the inner repetition."), span)
        | InvalidEscapeInStringAt offset =>
            let span_start := fst (span_range_unchecked span) in
            (* [usize] subtraction: it panics below zero *)
            if (span_start + offset =? 0)%N then None
            else Some (None, span_new (span_start + offset - 1) (span_start + offset + 1))
        | RecursionLimit =>
            Some (Some (u "Try a less nested expression. It helps to refactor it using variables:" ++ nl
                        ++ u "https://pomsky-lang.org/docs/language-tour/variables/"), span)
        | _ => Some (None, span)
        end in
      match help_span with
      | None => None
      | Some (help, span) =>
          Some {| severity := SevError; code := None; msg := kind_to_string (pe_kind e);
                  source_code := Some source_code; help := help; span := span |}
      end
  end.

(** [Diagnostic::from_parse_errors]: the diagnostics of the errors of
    [Multiple], recursively, in order; any panic is the panic of the whole. *)
Fixpoint from_parse_errors (e : ParseError) (source_code : str) : option (list Diagnostic) :=
  match e with
  | MkParseError (Multiple multiple) _ =>
      (fix flat (es : list ParseError) : option (list Diagnostic) :=
         match es with
         | [] => Some []
         | err :: rest =>
             match from_parse_errors err source_code with
             | None => None
             | Some ds =>
                 match flat rest with
                 | None => None
                 | Some ds' => Some (ds ++ ds')
                 end
             end
         end) multiple
  | _ => option_map (fun d => [d]) (from_parse_error e source_code)
  end.

(** [kind.to_string()] of a [CompileErrorKind]. *)
Variable compile_kind_to_string : CompileErrorKind -> str.

(** The span of a diagnostic made from a compile error: the error's span,
    or the whole source for the empty span. *)
Definition compile_error_span (sp : Span) (source_code : str) : Span :=
  match span_range sp with
  | Some (a, b) => span_new a b
  | None => span_new 0 (blen source_code)
  end.

(** [Diagnostic::from_compile_error] *)
Definition from_compile_error (e : CompileError) (source_code : str) : option Diagnostic :=
  match ce_kind e with
  | CEParseError kind => from_parse_error (MkParseError kind (ce_span e)) source_code
  | UnknownVariable _ (Some similar) | UnknownReferenceName _ (Some similar) =>
      Some {| severity := SevError; code := None; msg := compile_kind_to_string (ce_kind e);
              source_code := Some source_code;
              help := if feature_suggestions
                      then Some (u "Perhaps you meant `" ++ similar ++ u "`")
                      else None;
              span := compile_error_span (ce_span e) source_code |}
  | _ =>
      Some {| severity := SevError; code := None; msg := compile_kind_to_string (ce_kind e);
              source_code := Some source_code; help := None;
              span := compile_error_span (ce_span e) source_code |}
  end.

(** [Diagnostic::from_compile_errors] *)
Definition from_compile_errors (e : CompileError) (source_code : str) : option (list Diagnostic) :=
  match ce_kind e with
  | CEParseError kind => from_parse_errors (MkParseError kind (ce_span e)) source_code
  | _ =>
      Some [ {| severity := SevError; code := None; msg := compile_kind_to_string (ce_kind e);
                source_code := Some source_code; help := None;
                span := compile_error_span (ce_span e) source_code |} ]
  end.

End Diagnostics.

(** *** The lexer *)

(** [Token] *)
Module Token.
Inductive Token : Type :=
| BStart | BEnd | LookAhead | LookBehind | Backref | BWord
| Star | Plus | QuestionMark | Pipe | Colon | OpenParen | CloseParen
| OpenBrace | CloseBrace | Comma | Not | OpenBracket | Dash | CloseBracket
| Dot | Semicolon | Equals
| String | CodePoint | Number | Identifier
| ErrorMsg (m : ParseErrorMsg)
| Error.
End Token.
Import Token.

(** Modelled from the spec: the [MicroRegex] matchers (micro_regex.rs is not
    part of the sources). A matcher either fails or returns the number of
    characters it consumed and the value it captured; the only values the
    lexer uses are the hints attached with [ctx]. Literal strings match a
    prefix; [CharIs] one character with the predicate; alternatives try
    their members in order, first success wins; a sequence matches its
    parts one after the other, its length is the sum and its value the last
    one captured; [Many0]/[Many1] are greedy repetitions of a character
    predicate; [ctx] attaches a constant value on success. *)
Definition Matcher : Type := str -> option (nat * option ParseErrorMsg).

Definition m_lit (pat : str) : Matcher :=
  fun s => if starts_with pat s then Some (List.length pat, None) else None.

Definition m_char (c : char) : Matcher := m_lit [c].

Definition m_char_is (p : char -> bool) : Matcher :=
  fun s => match s with
           | c :: _ => if p c then Some (1%nat, None) else None
           | [] => None
           end.

Fixpoint m_alts (ms : list Matcher) : Matcher :=
  fun s => match ms with
           | [] => None
           | m :: ms' => match m s with
                         | Some r => Some r
                         | None => m_alts ms' s
                         end
           end.

Definition m_seq (m1 m2 : Matcher) : Matcher :=
  fun s => match m1 s with
           | None => None
           | Some (n1, v1) =>
               match m2 (skipn n1 s) with
               | None => None
               | Some (n2, v2) =>
                   Some ((n1 + n2)%nat, match v2 with Some _ => v2 | None => v1 end)
               end
           end.

Fixpoint count_while (p : char -> bool) (s : str) : nat :=
  match s with
  | c :: s' => if p c then S (count_while p s') else O
  | [] => O
  end.

Definition m_many0 (p : char -> bool) : Matcher :=
  fun s => Some (count_while p s, None).

Definition m_many1 (p : char -> bool) : Matcher :=
  fun s => match count_while p s with
           | O => None
           | n => Some (n, None)
           end.

Definition m_ctx (h : ParseErrorMsg) (m : Matcher) : Matcher :=
  fun s => match m s with
           | Some (n, _) => Some (n, Some h)
           | None => None
           end.

(** The value a [Capture] of ([prefix], alternatives with a context) yields. *)
Definition capture_ctx (m : Matcher) (s : str) : option (nat * ParseErrorMsg) :=
  match m s with
  | Some (len, Some err) => Some (len, err)
  | _ => None
  end.

(** [parse_backslash] *)
Definition parse_backslash (input : str) : option (nat * ParseErrorMsg) :=
  let hex := m_char_is is_ascii_hexdigit in
  let ident := m_many1 (fun c => is_ascii_alphanumeric c || char_in (u "-+_") c) in
  let after_gk := m_alts
    [ m_seq (m_char 60) (m_seq ident (m_char 62));
      m_seq (m_char 123) (m_seq ident (m_char 125));
      m_seq (m_char 39) (m_seq ident (m_char 39));
      m_seq (m_alts [m_lit (u "-"); m_lit (u "+"); m_lit []]) (m_char_is is_ascii_digit) ] in
  let after_p := m_alts
    [ m_char_is is_ascii_alphanumeric;
      m_seq (m_char 123) (m_seq ident (m_char 125));
      m_seq (m_lit (u "{^")) (m_seq ident (m_char 125)) ] in
  let after_backslash := m_alts
    [ m_ctx BackslashUnicode
        (m_seq (m_alts [m_lit (u "u{"); m_lit (u "x{")])
               (m_seq (m_many1 is_ascii_hexdigit) (m_char 125)));
      m_ctx BackslashU4 (m_seq (m_char 117) (m_seq hex (m_seq hex (m_seq hex hex))));
      m_ctx BackslashX2 (m_seq (m_char 120) (m_seq hex hex));
      m_ctx BackslashGK (m_seq (m_alts [m_char 107; m_char 103]) after_gk);
      m_ctx BackslashProperty (m_seq (m_alts [m_char 112; m_char 80]) after_p);
      m_ctx Backslash (m_char_is (fun _ => true)) ] in
  capture_ctx (m_seq (m_char 92) after_backslash) input.

(** [parse_special_group] *)
Definition parse_special_group (input : str) : option (nat * ParseErrorMsg) :=
  let ident := m_many1 (fun c => is_ascii_alphanumeric c || (c =? 45) || (c =? 43)) in
  let after_open := m_alts
    [ m_ctx GroupNonCapturing (m_char 58);
      m_ctx GroupLookahead (m_char 61);
      m_ctx GroupLookaheadNeg (m_char 33);
      m_ctx GroupAtomic (m_char 62);
      m_ctx GroupConditional (m_char 40);
      m_ctx GroupBranchReset (m_char 124);
      m_ctx GroupLookbehind (m_lit (u "<="));
      m_ctx GroupLookbehindNeg (m_lit (u "<!"));
      m_ctx GroupNamedCapture (m_seq (m_alts [m_lit (u "P<"); m_lit (u "<")]) (m_seq ident (m_char 62)));
      m_ctx GroupNamedCapture (m_seq (m_char 39) (m_seq ident (m_char 39)));
      m_ctx GroupPcreBackreference (m_seq (m_lit (u "P=")) (m_seq ident (m_char 41)));
      m_ctx GroupSubroutineCall (m_alts [m_lit (u "P>"); m_lit (u "&")]);
      m_ctx GroupComment (m_seq (m_char 35) (m_seq (m_many0 (fun c => negb (c =? 41))) (m_char 41)));
      m_ctx GroupOther (m_lit []) ] in
  capture_ctx (m_seq (m_lit (u "(?")) after_open) input.

(** [find_unescaped_quote]: the index of the first double quote (34) not
    escaped by a backslash; a backslash escapes the character after it. *)
Fixpoint find_unescaped_quote (s : str) : option nat :=
  match s with
  | [] => None
  | c :: rest =>
      if c =? 34 then Some O
      else if c =? 92 then
        match rest with
        | [] => None
        | _ :: rest' => option_map (fun n => (n + 2)%nat) (find_unescaped_quote rest')
        end
      else option_map S (find_unescaped_quote rest)
  end.

Section Lexer.

(** [char::is_alphabetic] and [char::is_alphanumeric] (Unicode tables of
    the standard library). *)
Variable is_alphabetic : char -> bool.
Variable is_alphanumeric : char -> bool.

(** The [consume_chain!] cascade of [tokenize]: the length (in characters)
    of the next token and the token, for an input starting with [c]. *)
Definition consume (input : str) (c : char) : nat * Token :=
  if starts_with (u "<%") input then (2%nat, BStart)
  else if starts_with (u "%>") input then (2%nat, BEnd)
  else if starts_with (u ">>") input then (2%nat, LookAhead)
  else if starts_with (u "<<") input then (2%nat, LookBehind)
  else if starts_with (u "::") input then (2%nat, Backref)
  else if c =? 37 then (1%nat, BWord)
  else if c =? 42 then (1%nat, Star)
  else if c =? 43 then (1%nat, Plus)
  else if c =? 63 then (1%nat, QuestionMark)
  else if c =? 124 then (1%nat, Pipe)
  else if c =? 58 then (1%nat, Colon)
  else if c =? 41 then (1%nat, CloseParen)
  else if c =? 123 then (1%nat, OpenBrace)
  else if c =? 125 then (1%nat, CloseBrace)
  else if c =? 44 then (1%nat, Comma)
  else if c =? 33 then (1%nat, Not)
  else if c =? 91 then (1%nat, OpenBracket)
  else if c =? 45 then (1%nat, Dash)
  else if c =? 93 then (1%nat, CloseBracket)
  else if c =? 46 then (1%nat, Dot)
  else if c =? 59 then (1%nat, Semicolon)
  else if c =? 61 then (1%nat, Equals)
  else if c =? 39 then
    match find (N.eqb 39) (skipn 1 input) with
    | Some len_inner => ((len_inner + 2)%nat, String)
    | None => (List.length input, ErrorMsg UnclosedString)
    end
  else if c =? 34 then
    match find_unescaped_quote (skipn 1 input) with
    | Some len_inner => ((len_inner + 2)%nat, String)
    | None => (List.length input, ErrorMsg UnclosedString)
    end
  else match m_seq (m_lit (u "U+")) (m_many1 is_ascii_hexdigit) input with
  | Some (len, _) => (len, CodePoint)
  | None =>
  match m_many1 is_ascii_digit input with
  | Some (len, _) => (len, Number)
  | None =>
  match m_seq (m_char_is (fun c => is_alphabetic c || (c =? 95)))
              (m_many0 (fun c => is_alphanumeric c || (c =? 95))) input with
  | Some (len, _) => (len, Identifier)
  | None =>
  if c =? 94 then (1%nat, ErrorMsg Caret)
  else if c =? 36 then (1%nat, ErrorMsg Dollar)
  else match parse_special_group input with
  | Some (len, err) => (len, ErrorMsg err)
  | None =>
  if c =? 40 then (1%nat, OpenParen)
  else match parse_backslash input with
  | Some (len, err) => (len, ErrorMsg err)
  | None => (1%nat, Error)
  end end end end end.

(** The skipping at the top of the loop: leading whitespace, then, while
    the input starts with ['#'], everything up to the next line break and
    the whitespace after it. *)
Fixpoint skip_comments (fuel : nat) (input : str) : str :=
  match fuel with
  | O => input
  | S f =>
      match input with
      | c :: _ =>
          if c =? 35
          then skip_comments f (trim_start (trim_start_matches (fun c => negb (c =? 10)) input))
          else input
      | [] => input
      end
  end.

Definition skip (input : str) : str :=
  let input := trim_start input in
  skip_comments (S (List.length input)) input.

(** The loop of [tokenize]: [offset] is the byte offset of [input] in the
    source; [fuel] bounds the iterations (each consumes a character). *)
Fixpoint tokenize_loop (fuel : nat) (input : str) (offset : N) : list (Token * Span) :=
  match fuel with
  | O => []
  | S f =>
      let input_len := blen input in
      let input := skip input in
      let offset := offset + (input_len - blen input) in
      match input with
      | [] => []
      | c :: _ =>
          let (len, token) := consume input c in
          let start := offset in
          let offset := offset + blen (firstn len input) in
          (token, span_new start offset) :: tokenize_loop f (skipn len input) offset
      end
  end.

(** [tokenize] *)
Definition tokenize (input : str) : list (Token * Span) :=
  tokenize_loop (S (List.length input)) input 0.

End Lexer.

(** What the lexer may skip between tokens: whitespace and ['#'] comments
    running up to a line break. *)
Inductive skippable : str -> Prop :=
| skippable_nil : skippable []
| skippable_ws (c : char) (s : str) :
    is_whitespace c = true -> skippable s -> skippable (c :: s)
| skippable_comment (body s : str) :
    forallb (fun c => negb (c =? 10)) body = true -> skippable s ->
    skippable (35 :: body ++ s).

(** The tokens cover the input from byte offset [off]: each token is
    preceded by a skippable run and spans the bytes it consumed, which are
    at least one character; after the last token only skippable text is
    left. *)
Fixpoint covers (off : N) (input : str) (toks : list (Token * Span)) : Prop :=
  match toks with
  | [] => skippable input
  | (_, sp) :: rest =>
      exists skipped consumed remaining,
        input = skipped ++ consumed ++ remaining /\
        skippable skipped /\ consumed <> [] /\
        sp = SpanRange (off + blen skipped) (off + blen skipped + blen consumed) /\
        covers (off + blen skipped + blen consumed) remaining rest
  end.

(** Spans in strictly increasing order: each is non-empty and ends no later
    than the next one starts. *)
Fixpoint spans_increasing (toks : list (Token * Span)) : Prop :=
  match toks with
  | [] => True
  | (_, SpanRange a b) :: rest =>
      a < b /\
      Forall (fun t => match snd t with SpanRange a' _ => b <= a' | SpanEmpty => False end) rest /\
      spans_increasing rest
  | (_, SpanEmpty) :: _ => False
  end.

(** A matcher never consumes more characters than its input has. *)
Definition bounded (m : Matcher) : Prop :=
  forall s n v, m s = Some (n, v) -> (n <= List.length s)%nat.

(** A matcher that, when it matches, consumes at least one character. *)
Definition pos_first (m : Matcher) : Prop :=
  forall s n v, m s = Some (n, v) -> (1 <= n)%nat.

(** A matcher whose matches start with an ASCII character and consume at
    least one character. *)
Definition first_ascii (m : Matcher) : Prop :=
  forall s n v, m s = Some (n, v) -> exists d s', s = d :: s' /\ d < 128 /\ (1 <= n)%nat.

(** The property name the help of [BackslashProperty] suggests: the slice
    after its first two bytes, trimmed of ['{'], ['}'] and ['^'], with every
    ['+'] and ['-'] replaced by ['_']. *)
Definition property_name (s : str) : str :=
  replace (char_in (u "+-")) (u "_") (trim_matches (char_in (u "{}^")) (skipn 2 s)).

(** The reading of the specification for the [BackslashProperty] help:
    the negated form exactly for [\P{...}] and [\p{^...}]. *)
Definition spec_property_negated (s : str) : bool :=
  starts_with (u "\P{") s || starts_with (u "\p{^") s.

Definition spec_property_help (s : str) : option (option str) :=
  Some (Some (u "Replace `" ++ s ++ u "` with `["
              ++ (if spec_property_negated s then u "!" else [])
              ++ property_name s ++ u "]`")).

(** The condition under which the code suggests the negated form. *)
Definition property_negated (s : str) : bool :=
  (starts_with (u "\P") s && negb (starts_with (u "\P{^") s)) || starts_with (u "\p{^") s.

End Pomsky.

(** * Properties of rulex-lib *)
Module RulexFacts.
Import Rulex.

Local Open Scope string_scope.

Lemma str_append_assoc (a b c : string) : (a ++ b) ++ c = a ++ (b ++ c).
Proof. induction a as [|x a IH]; simpl; [reflexivity | now rewrite IH]. Qed.

Lemma str_append_empty_r (a : string) : a ++ "" = a.
Proof. induction a as [|x a IH]; simpl; [reflexivity | now rewrite IH]. Qed.

(** The quantifier arms of [Repetition::comp] agree with the spec's rule list. *)
Lemma repetition_quantifier_spec (k : RepetitionKind) :
  repetition_quantifier k = spec_quantifier k.
Proof.
  destruct k as [[|p] [[|q]|]]; unfold repetition_quantifier, spec_quantifier; simpl.
  - reflexivity.
  - destruct q; reflexivity.
  - reflexivity.
  - destruct p; reflexivity.
  - rewrite (Pos.eqb_sym q p). destruct p as [p'|p'|]; simpl;
      [destruct (Pos.eqb p'~1 q) | destruct (Pos.eqb p'~0 q) | destruct (Pos.eqb 1 q)];
      reflexivity.
  - destruct p; reflexivity.
Qed.

Section RepetitionFacts.
Context {CompileState : Type} {group : Type}.
Variable comp_literal : string -> @comp_fn CompileState.
Variable comp_char_class : char_class -> @comp_fn CompileState.
Variable comp_group : group -> @comp_fn CompileState.
Variable comp_boundary : boundary -> @comp_fn CompileState.
Variable gnp : group -> bool.

Local Abbreviation compile :=
  (comp comp_literal comp_char_class comp_group comp_boundary gnp).
Local Abbreviation needs_parens := (needs_parens_before_repetition gnp).

Lemma repetition_comp_unfold (rule : @Rulex group) kind greedy o st buf :
  compile (Repetition rule kind greedy) o st buf =
  then_push ((if needs_parens rule then parens_comp (compile rule) else compile rule) o st buf)
            (repetition_quantifier kind ++ lazy_suffix greedy).
Proof.
  simpl. unfold repetition_comp, then_push.
  destruct ((if needs_parens rule then parens_comp (compile rule) else compile rule) o st buf)
    as [[st' buf'] [u|e]]; [|reflexivity].
  destruct greedy; simpl.
  - now rewrite str_append_empty_r.
  - now rewrite str_append_assoc.
Qed.

(** C1: [Repetition::comp] writes, after the child's output, the quantifier
    chosen by the first matching rule of the canonical table
    ([{0,1}] as [?], [{0,inf}] as [*], [{1,inf}] as [+], [{n,inf}] as
    [{n,}], [{n,n}] as [{n}], [{0,m}] as [{,m}], otherwise [{n,m}]), and then
    one [?] when the repetition is lazy. *)
Theorem repetition_comp_canonical_quantifier :
  forall (rule : @Rulex group) kind greedy o st buf,
  compile (Repetition rule kind greedy) o st buf =
  then_push ((if needs_parens rule then parens_comp (compile rule) else compile rule) o st buf)
            (spec_quantifier kind ++ lazy_suffix greedy).
Proof.
  intros. rewrite repetition_comp_unfold. now rewrite repetition_quantifier_spec.
Qed.

(** C2: the child of a repetition is wrapped in [(?:...)] exactly when
    [needs_parens_before_repetition] holds for it, which is the case for
    every literal and every alternation, and not for any character class
    or boundary. *)
Theorem repetition_child_parens_iff_needs_parens :
  (forall (rule : @Rulex group) kind greedy o st buf,
     compile (Repetition rule kind greedy) o st buf =
     if needs_parens rule
     then then_push (compile rule o st (buf ++ "(?:"))
                    (")" ++ repetition_quantifier kind ++ lazy_suffix greedy)
     else then_push (compile rule o st buf)
                    (repetition_quantifier kind ++ lazy_suffix greedy)) /\
  (forall l, needs_parens (Literal l) = true) /\
  (forall rules, needs_parens (Alternation rules) = true) /\
  (forall c, needs_parens (@CharClass group c) = false) /\
  (forall b, needs_parens (@Boundary group b) = false).
Proof.
  repeat split.
  intros rule kind greedy o st buf. rewrite repetition_comp_unfold.
  destruct (needs_parens rule); [|reflexivity].
  unfold parens_comp, then_push.
  destruct (compile rule o st (buf ++ "(?:")) as [[st' buf'] [u|e]]; [|reflexivity].
  now rewrite str_append_assoc.
Qed.

End RepetitionFacts.

Section NewRulexFacts.
Context {group : Type}.


Lemma is_non_negated_class_spec (r : @Rulex group) :
  is_non_negated_class r = true <-> non_negated_class r.
Proof.
  unfold non_negated_class. split.
  - intro H. destruct r; try discriminate.
    exists c. split; [reflexivity|]. now apply negb_true_iff.
  - intros [c [-> Hn]]. simpl. now rewrite Hn.
Qed.

Lemma forallb_non_negated (rules : list (@Rulex group)) :
  forallb is_non_negated_class rules = true <-> Forall non_negated_class rules.
Proof.
  rewrite forallb_forall, Forall_forall.
  split; intros H r Hr; apply is_non_negated_class_spec; auto.
Qed.

Lemma new_rulex_fold (rules : list (@Rulex group)) (acc : char_class) :
  Forall non_negated_class rules ->
  fold_left (fun cc rule => match rule with CharClass c => add_all cc c | _ => cc end)
            rules acc
  = {| negative := negative acc; items := (items acc ++ List.concat (map class_items rules))%list |}.
Proof.
  revert acc. induction rules as [|r rules IH]; intros acc H; simpl.
  - destruct acc; simpl. now rewrite app_nil_r.
  - inversion H as [|? ? [c [-> _]] Hrest]; subst. simpl.
    rewrite IH by assumption. simpl. now rewrite app_assoc.
Qed.

Lemma existsb_concat_items (named_mem : string -> N -> bool) (x : N) (rules : list (@Rulex group)) :
  Forall non_negated_class rules ->
  existsb (item_matches named_mem x) (List.concat (map class_items rules))
  = existsb (rule_matches named_mem x) rules.
Proof.
  induction rules as [|r rules IH]; intro H; simpl; [reflexivity|].
  inversion H as [|? ? [c [-> Hn]] Hrest]; subst. simpl.
  rewrite existsb_app, IH by assumption.
  unfold char_class_matches. unfold is_negated in Hn. now rewrite Hn.
Qed.

(** C3: [Alternation::new_rulex] of a list of non-negated character
    classes is one non-negated character class holding the items of all of
    them, so that it matches exactly the characters matched by one of the
    classes; a list with any other element stays an [Alternation] of that
    very list. *)
Theorem new_rulex_collapses_non_negated_classes
    (named_mem : string -> N -> bool) (rules : list (@Rulex group)) :
  (Forall non_negated_class rules ->
   exists cc, new_rulex rules = CharClass cc /\ is_negated cc = false /\
     items cc = List.concat (map class_items rules) /\
     forall x, char_class_matches named_mem cc x = existsb (rule_matches named_mem x) rules) /\
  (Exists (fun r => ~ non_negated_class r) rules ->
   new_rulex rules = Alternation rules).
Proof.
  split.
  - intro H. unfold new_rulex.
    assert (Hb : forallb is_non_negated_class rules = true) by now apply forallb_non_negated.
    rewrite Hb, new_rulex_fold by assumption. simpl.
    eexists. split; [reflexivity|]. split; [reflexivity|]. split; [reflexivity|].
    intro x. unfold char_class_matches. simpl. now apply existsb_concat_items.
  - intro H. unfold new_rulex.
    destruct (forallb is_non_negated_class rules) eqn:Hb; [|reflexivity].
    apply forallb_non_negated in Hb. rewrite Forall_forall in Hb.
    apply Exists_exists in H. destruct H as [r [Hr Hn]]. exfalso. now apply Hn, Hb.
Qed.

End NewRulexFacts.

(** C4: [RepetitionKind::try_from] rejects [(a, Some b)] with [NotAscending]
    exactly when [a > b], accepts [(a, None)] for every [u32] [a], and on
    success keeps the bounds it was given. *)
Theorem try_from_bounds (a : N) (Ha : (a <= u32_MAX)%N) :
  (forall b, try_from (a, Some b) = Err NotAscending <-> (b < a)%N) /\
  try_from (a, None) = Ok {| lower_bound := a; upper_bound := None |} /\
  (forall ub k, try_from (a, ub) = Ok k -> get_range k = (a, ub)).
Proof.
  split; [|split].
  - intro b. simpl. destruct (N.ltb_spec b a) as [Hlt|Hge]; split; intro H; try lia; congruence.
  - simpl. destruct (N.ltb_spec u32_MAX a); [lia | reflexivity].
  - intros ub k. simpl. destruct (_ <? a)%N; [discriminate|].
    intro H. now injection H as <-.
Qed.

(** C5: [Grapheme::comp] fails with [Unsupported(Grapheme, flavor)] at the
    grapheme's span, leaving the buffer as it was, when the flavor is
    JavaScript, and otherwise succeeds after appending exactly [\X]. *)
Theorem grapheme_comp_flavor_gate {CS : Type} (g : Grapheme) (o : CompileOptions)
    (st : CS) (buf : string) :
  (flavor o = JavaScript ->
   grapheme_comp g o st buf
   = (st, buf, Err (at_span (Unsupported Feature_Grapheme (flavor o)) (grapheme_span g)))) /\
  (flavor o <> JavaScript -> grapheme_comp g o st buf = (st, buf ++ "\X", Ok tt)).
Proof.
  unfold grapheme_comp. split; intro H.
  - now rewrite H.
  - destruct (flavor o); simpl; congruence.
Qed.


Lemma new_rulex_collapses_non_negated_classes_witness :
  (exists cc, new_rulex [@CharClass unit {| negative := false; items := [ItemCodePoint 97] |};
                         CharClass {| negative := false; items := [ItemRange 48 57] |}]
              = CharClass cc /\ is_negated cc = false) /\
  new_rulex [@Literal unit "a"; CharClass {| negative := false; items := [] |}]
  = Alternation [Literal "a"; CharClass {| negative := false; items := [] |}].
Proof.
  split.
  - destruct (proj1 (new_rulex_collapses_non_negated_classes (fun _ _ => false)
                        [@CharClass unit {| negative := false; items := [ItemCodePoint 97] |};
                         CharClass {| negative := false; items := [ItemRange 48 57] |}]))
      as [cc [H1 [H2 _]]].
    + repeat constructor; eexists; split; reflexivity.
    + exists cc. split; assumption.
  - apply (proj2 (new_rulex_collapses_non_negated_classes (fun _ _ => false)
                    [@Literal unit "a"; CharClass {| negative := false; items := [] |}])).
    apply Exists_cons_hd. intros [c [H _]]. discriminate.
Defined.

Lemma try_from_bounds_witness :
  (7 <= u32_MAX)%N /\
  try_from (7, Some 3)%N = Err NotAscending /\
  try_from (7%N, None) = Ok {| lower_bound := 7; upper_bound := None |}.
Proof.
  assert (H : (7 <= u32_MAX)%N) by (unfold u32_MAX; lia).
  split; [exact H|]. split.
  - apply (proj1 (try_from_bounds 7 H) 3%N). lia.
  - exact (proj1 (proj2 (try_from_bounds 7 H))).
Defined.

Lemma grapheme_comp_flavor_gate_witness :
  grapheme_comp {| grapheme_span := SpanRange 0 8 |} {| flavor := JavaScript |} tt "a"
  = (tt, "a", Err (at_span (Unsupported Feature_Grapheme JavaScript) (SpanRange 0 8))) /\
  grapheme_comp {| grapheme_span := SpanRange 0 8 |} {| flavor := Pcre |} tt "a"
  = (tt, "a\X", Ok tt).
Proof.
  split.
  - apply (proj1 (grapheme_comp_flavor_gate {| grapheme_span := SpanRange 0 8 |}
                    {| flavor := JavaScript |} tt "a")). reflexivity.
  - apply (proj2 (grapheme_comp_flavor_gate {| grapheme_span := SpanRange 0 8 |}
                    {| flavor := Pcre |} tt "a")). discriminate.
Defined.

Lemma string_pop_snoc (s : string) (c : ascii) : string_pop (s ++ String c "") = s.
Proof.
  induction s as [|x s IH]; [reflexivity|].
  simpl. destruct s as [|y s']; [reflexivity|].
  rewrite <- IH at 2. reflexivity.
Qed.

Section CompileFacts.
Context {CompileState : Type} {group : Type}.

Lemma parens_comp_append_only (f : @comp_fn CompileState) :
  append_only f -> append_only (parens_comp f).
Proof.
  intros Hf o st buf. unfold parens_comp.
  rewrite (Hf o st (buf ++ "(?:")), (Hf o st ("" ++ "(?:")).
  destruct (f o st "") as [[st' out] [u|e]]; simpl;
    now rewrite ?str_append_assoc.
Qed.

Lemma repetition_comp_append_only (np : bool) (f : @comp_fn CompileState) kind greedy :
  append_only f -> append_only (repetition_comp np f kind greedy).
Proof.
  intros Hf o st buf. unfold repetition_comp.
  assert (Hg : append_only (if np then parens_comp f else f))
    by (destruct np; [apply parens_comp_append_only|]; assumption).
  rewrite (Hg o st buf).
  destruct ((if np then parens_comp f else f) o st "") as [[st' out] [u|e]]; [|reflexivity].
  destruct greedy; now rewrite ?str_append_assoc.
Qed.

Lemma alternation_loop_append_only (fs : list (@comp_fn CompileState)) :
  Forall append_only fs -> append_only (alternation_loop fs).
Proof.
  induction 1 as [|f fs Hf _ IH]; intros o st buf.
  - simpl. now rewrite str_append_empty_r.
  - simpl. rewrite (Hf o st buf).
    destruct (f o st "") as [[st1 out1] [u|e]]; [|reflexivity].
    rewrite (IH o st1 ((buf ++ out1) ++ "|")), (IH o st1 (out1 ++ "|")).
    destruct (alternation_loop fs o st1 "") as [[st' out] r].
    now rewrite !str_append_assoc.
Qed.

Lemma alternation_loop_bar (fs : list (@comp_fn CompileState)) o st buf st' buf' u :
  fs <> [] -> alternation_loop fs o st buf = (st', buf', Ok u) ->
  exists x, buf' = x ++ "|".
Proof.
  revert st buf. induction fs as [|f fs IH]; intros st buf Hne H; [contradiction|].
  simpl in H. destruct (f o st buf) as [[st1 b1] [u1|e]]; [|discriminate].
  destruct fs as [|f' fs'].
  - simpl in H. injection H as _ <- _. eauto.
  - eapply IH; [discriminate | exact H].
Qed.

Lemma alternation_comp_append_only (fs : list (@comp_fn CompileState)) :
  Forall append_only fs -> append_only (alternation_comp fs).
Proof.
  intros Hfs o st buf. unfold alternation_comp.
  rewrite (alternation_loop_append_only fs Hfs o st buf).
  destruct (alternation_loop fs o st "") as [[st' out] [u|e]] eqn:E; [|reflexivity].
  destruct fs as [|f fs]; [reflexivity|].
  assert (Hne : f :: fs <> []) by discriminate.
  destruct (alternation_loop_bar _ _ _ _ _ _ _ Hne E) as [x ->].
  change "|" with (String "|" "").
  now rewrite <- str_append_assoc, !string_pop_snoc.
Qed.

Variable comp_literal : string -> @comp_fn CompileState.
Variable comp_char_class : char_class -> @comp_fn CompileState.
Variable comp_group : group -> @comp_fn CompileState.
Variable comp_boundary : boundary -> @comp_fn CompileState.
Variable gnp : group -> bool.
Hypothesis literal_append_only : forall l, append_only (comp_literal l).
Hypothesis char_class_append_only : forall c, append_only (comp_char_class c).
Hypothesis group_append_only : forall g, append_only (comp_group g).
Hypothesis boundary_append_only : forall b, append_only (comp_boundary b).

Local Abbreviation comp' := (comp comp_literal comp_char_class comp_group comp_boundary gnp).

Lemma comp_append_only_aux : forall r : @Rulex group, append_only (comp' r).
Proof.
  apply Rulex_nested_ind; intros; simpl; auto.
  - apply alternation_comp_append_only. now apply Forall_map.
  - now apply repetition_comp_append_only.
Qed.

(** X1: when the compilers of literals, character classes, groups and
    boundaries only append to the buffer, so does [Rulex::comp] for every
    rule: it never reads or rewrites what the buffer held before, and the
    text it appends and the state and result it ends in do not depend on
    that buffer. *)
Theorem comp_append_only : forall r : @Rulex group, append_only (comp' r).
Proof. exact comp_append_only_aux. Qed.


Variable compile_state_new : CompileState.
Local Abbreviation compile' := (compile comp_literal comp_char_class comp_group comp_boundary gnp compile_state_new).
Local Abbreviation needs_parens := (needs_parens_before_repetition gnp).






End CompileFacts.

Section NegateFacts.
Context {group : Type}.
Variable char_class_negate : char_class -> char_class.
Hypothesis char_class_negate_involutive : forall c, char_class_negate (char_class_negate c) = c.

(** X4: [Rulex::negate] is an involution where it is defined (given that
    negating a character class twice gives it back), and it is undefined
    exactly for the rules other than character classes and the word
    boundaries [%] and [!%]. *)
Theorem negate_involutive (r : @Rulex group) :
  (forall r', negate char_class_negate r = Some r' -> negate char_class_negate r' = Some r) /\
  (negate char_class_negate r = None <->
   (forall c, r <> CharClass c) /\ r <> Boundary Word /\ r <> Boundary NotWord).
Proof.
  split.
  - intros r' H. destruct r; try discriminate; simpl in H.
    + injection H as <-. simpl. now rewrite char_class_negate_involutive.
    + destruct b; try discriminate; injection H as <-; reflexivity.
  - destruct r as [| c | | | | b]; simpl;
      try (split; [intros _; repeat split; intros; discriminate | reflexivity]).
    + split; [discriminate|]. intros [H _]. now destruct (H c).
    + destruct b; split; try reflexivity; try discriminate;
        try (intros [_ [H1 H2]]; contradiction);
        intros _; repeat split; intros; discriminate.
Qed.

End NegateFacts.

(** X5: the constructors [zero_inf], [one_inf], [zero_one] and [fixed n]
    build kinds that [try_from] accepts back unchanged, and [Repetition::comp]
    writes them as [*], [+], [?] and [{n}]. *)
Theorem repetition_kind_constructors :
  try_from (get_range zero_inf) = Ok zero_inf /\ repetition_quantifier zero_inf = "*" /\
  try_from (get_range one_inf) = Ok one_inf /\ repetition_quantifier one_inf = "+" /\
  try_from (get_range zero_one) = Ok zero_one /\ repetition_quantifier zero_one = "?" /\
  (forall n, try_from (get_range (fixed n)) = Ok (fixed n) /\
             repetition_quantifier (fixed n) = "{" ++ display_u32 n ++ "}").
Proof.
  do 6 (split; [reflexivity|]). intro n. split.
  - simpl. now rewrite N.ltb_irrefl.
  - unfold repetition_quantifier, fixed. cbn [lower_bound upper_bound].
    destruct n as [|[p|p|]]; cbn -[display_u32]; rewrite ?Pos.eqb_refl; reflexivity.
Qed.

(** Witnesses: leaf compilers that append fixed text. *)
Lemma comp_append_only_witness :
  append_only (comp (CompileState:=unit) (group:=unit)
    (fun l _ st buf => (st, buf ++ l, Ok tt))
    (fun _ _ st buf => (st, buf ++ "[a]", Ok tt))
    (fun _ _ st buf => (st, buf ++ "(g)", Ok tt))
    (fun _ _ st buf => (st, buf ++ "\b", Ok tt))
    (fun _ => true)
    (Repetition (Alternation [Literal "a"; Group tt]) zero_inf Yes)).
Proof. apply comp_append_only; repeat intro; reflexivity. Defined.



Lemma negate_involutive_witness :
  let neg := fun c => {| negative := negb (negative c); items := items c |} in
  let r := @CharClass unit {| negative := false; items := [ItemCodePoint 97%N] |} in
  (forall r', negate neg r = Some r' -> negate neg r' = Some r) /\
  (negate neg r = None <->
   (forall c, r <> CharClass c) /\ r <> Boundary Word /\ r <> Boundary NotWord).
Proof.
  intros neg r. apply negate_involutive.
  intros [n i]. unfold neg. simpl. rewrite negb_involutive. reflexivity.
Defined.

End RulexFacts.

(** * Properties of pomsky-lib *)
Module PomskyFacts.
Import Pomsky.
Local Open Scope N_scope.

Lemma len_utf8_pos (c : char) : 1 <= len_utf8 c.
Proof. unfold len_utf8. repeat destruct (_ <? _); lia. Qed.

Lemma byte_to_char_index_blen (s : str) :
  byte_to_char_index (blen s) s = Some (List.length s).
Proof.
  induction s as [|c s IH]; [reflexivity|].
  simpl. pose proof (len_utf8_pos c).
  destruct (N.eqb_spec (len_utf8 c + blen s) 0); [lia|].
  destruct (N.leb_spec (len_utf8 c) (len_utf8 c + blen s)); [|lia].
  replace (len_utf8 c + blen s - len_utf8 c) with (blen s) by lia.
  now rewrite IH.
Qed.

Lemma slice_from_ascii2 (a b : char) (rest : str) :
  a < 128 -> b < 128 -> slice_from 2 (a :: b :: rest) = Some rest.
Proof.
  intros Ha Hb. unfold slice_from, slice.
  rewrite byte_to_char_index_blen. simpl.
  assert (Hla : len_utf8 a = 1) by (unfold len_utf8; destruct (N.ltb_spec a 128); lia).
  assert (Hlb : len_utf8 b = 1) by (unfold len_utf8; destruct (N.ltb_spec b 128); lia).
  rewrite Hla, Hlb. simpl.
  replace (byte_to_char_index 0 rest) with (Some O) by (destruct rest; reflexivity).
  simpl. now rewrite firstn_all.
Qed.

Lemma find_dash_some (sl : str) (i : nat) :
  find (N.eqb 45) sl = Some i ->
  sl = firstn i sl ++ 45 :: skipn (S i) sl /\ ~ In 45 (firstn i sl).
Proof.
  revert i. induction sl as [|c sl IH]; intros i H; [discriminate|].
  change (find (N.eqb 45) (c :: sl)) with
    (if N.eqb 45 c then Some O else option_map S (find (N.eqb 45) sl)) in H.
  destruct (N.eqb 45 c) eqn:E.
  - apply N.eqb_eq in E as <-. injection H as <-. simpl. split; [reflexivity | tauto].
  - apply N.eqb_neq in E.
    destruct (find (N.eqb 45) sl) as [j|] eqn:Hj; simpl in H; [|discriminate].
    injection H as <-. destruct (IH j eq_refl) as [Hs Hn].
    simpl. split; [now f_equal|]. intros [H|H]; [congruence | contradiction].
Qed.

Lemma skipn_dash (sl : str) (i : nat) :
  find (N.eqb 45) sl = Some i -> skipn i sl = 45 :: skipn (S i) sl.
Proof.
  revert i. induction sl as [|c sl IH]; intros i H; [discriminate|].
  change (find (N.eqb 45) (c :: sl)) with
    (if N.eqb 45 c then Some O else option_map S (find (N.eqb 45) sl)) in H.
  destruct (N.eqb 45 c) eqn:E.
  - apply N.eqb_eq in E as <-. injection H as <-. reflexivity.
  - destruct (find (N.eqb 45) sl) as [j|] eqn:Hj; [|discriminate].
    injection H as <-. simpl. now apply IH.
Qed.

Lemma find_dash_none (sl : str) : find (N.eqb 45) sl = None -> ~ In 45 sl.
Proof.
  induction sl as [|c sl IH]; intros H; [tauto|].
  change (find (N.eqb 45) (c :: sl)) with
    (if N.eqb 45 c then Some O else option_map S (find (N.eqb 45) sl)) in H.
  destruct (N.eqb 45 c) eqn:E; [discriminate|].
  apply N.eqb_neq in E.
  destruct (find (N.eqb 45) sl); simpl in H; [discriminate|].
  intros [Hc|Hin]; [congruence | now apply IH].
Qed.

Section DiagnosticFacts.
Variable kind_to_string : ParseErrorKind -> str.
Variable feature_suggestions : bool.

Local Abbreviation from_parse_error' := (from_parse_error kind_to_string feature_suggestions).
Local Abbreviation from_parse_errors' := (from_parse_errors kind_to_string feature_suggestions).

(** C6: for an [InvalidEscapeInStringAt(k)] error whose span [[s, t)] is a
    valid slice of the source, the diagnostic's span is narrowed to
    [[s+k-1, s+k+1)] and it has no help (when [s+k-1] is a byte offset,
    i.e. [s + k >= 1]). *)
Theorem invalid_escape_narrows_span (s t k : N) (src : str)
    (Hslice : slice s t src <> None) (Hk : 1 <= s + k) :
  exists d,
    from_parse_error' (MkParseError (InvalidEscapeInStringAt k) (SpanRange s t)) src = Some d /\
    span d = SpanRange (s + k - 1) (s + k + 1) /\ help d = None.
Proof.
  unfold from_parse_error. simpl.
  destruct (slice s t src) as [sl|]; [|contradiction].
  destruct (N.eqb_spec (s + k) 0); [lia|].
  eexists. split; [reflexivity|]. split; reflexivity.
Qed.

Lemma from_parse_errors_multiple (xs : list ParseError) (sp : Span) (src : str) :
  from_parse_errors' (MkParseError (Multiple xs) sp) src =
  (fix flat (es : list ParseError) : option (list Diagnostic) :=
     match es with
     | [] => Some []
     | err :: rest =>
         match from_parse_errors' err src with
         | None => None
         | Some ds => match flat rest with None => None | Some ds' => Some (ds ++ ds') end
         end
     end) xs.
Proof. reflexivity. Qed.

(** C7: [from_parse_errors] flattens [Multiple] recursively: the errors of
    [Multiple(xs)] give, in order, the concatenation of their own
    diagnostics, so that the count is the sum of their counts; any other
    error gives exactly the one diagnostic of [from_parse_error]. *)
Theorem from_parse_errors_flattens (src : str) :
  (forall xs sp ds,
     from_parse_errors' (MkParseError (Multiple xs) sp) src = Some ds ->
     exists dss, Forall2 (fun x dx => from_parse_errors' x src = Some dx) xs dss /\
                 ds = List.concat dss /\
                 List.length ds = list_sum (map (@List.length Diagnostic) dss)) /\
  (forall xs sp dss,
     Forall2 (fun x dx => from_parse_errors' x src = Some dx) xs dss ->
     from_parse_errors' (MkParseError (Multiple xs) sp) src = Some (List.concat dss)) /\
  (forall e, (forall xs, pe_kind e <> Multiple xs) ->
     from_parse_errors' e src = option_map (fun d => [d]) (from_parse_error' e src) /\
     forall ds, from_parse_errors' e src = Some ds -> List.length ds = 1%nat).
Proof.
  split; [|split].
  - intros xs sp. rewrite from_parse_errors_multiple.
    induction xs as [|x xs IH]; intros ds H.
    + injection H as <-. exists []. repeat split; constructor.
    + destruct (from_parse_errors' x src) as [dx|] eqn:Hx; [|discriminate].
      match type of H with
      | match ?r with _ => _ end = _ => destruct r as [ds'|] eqn:Hr; [|discriminate]
      end.
      injection H as <-.
      destruct (IH ds' eq_refl) as [dss [Hf [-> Hl]]].
      exists (dx :: dss). split; [now constructor|]. split; [reflexivity|].
      simpl. rewrite length_app. now rewrite <- Hl.
  - intros xs sp dss H. rewrite from_parse_errors_multiple.
    induction H as [|x dx xs dss Hx Hf IH]; [reflexivity|].
    rewrite Hx, IH. reflexivity.
  - intros [k sp] Hk. destruct k; try (split; [reflexivity|]);
      try (intros ds H; simpl in H;
           destruct (from_parse_error' _ src); [injection H as <-; reflexivity | discriminate]).
    exfalso. exact (Hk errors eq_refl).
Qed.

(** C10: for [RangeIsNotIncreasing] and [CharClass(DescendingRange)], once
    the error's span is a valid slice of the source, [from_parse_error]
    panics exactly when that slice has no ['-']; with one it returns a
    diagnostic whose help swaps the text before the first ['-'] and the
    text after it (with further leading dashes dropped), both trimmed. *)
Theorem switch_help_requires_dash (kind : ParseErrorKind) (sp : Span) (src sl : str)
    (Hkind : kind = RangeIsNotIncreasing \/ exists a b, kind = CharClass (DescendingRange a b))
    (Hsl : error_slice (MkParseError kind sp) src = Some sl) :
  (from_parse_error' (MkParseError kind sp) src = None <-> ~ In 45 sl) /\
  (In 45 sl ->
   exists d part1 rest,
     from_parse_error' (MkParseError kind sp) src = Some d /\
     sl = part1 ++ 45 :: rest /\ ~ In 45 part1 /\
     help d = Some ((match kind with
                     | RangeIsNotIncreasing => u "Switch the numbers: "
                     | _ => u "Switch the characters: "
                     end)
                    ++ trim (trim_start_matches (N.eqb 45) rest) ++ u "-" ++ trim part1)).
Proof.
  unfold from_parse_error. unfold error_slice in Hsl.
  destruct (error_range (MkParseError kind sp) src) as [a b].
  rewrite Hsl. simpl pe_kind.
  assert (Hsw : forall prefix,
            (switch_help prefix sl = None <-> ~ In 45 sl) /\
            (In 45 sl -> exists part1 rest,
               switch_help prefix sl
               = Some (Some (prefix ++ trim (trim_start_matches (N.eqb 45) rest) ++ u "-" ++ trim part1)) /\
               sl = part1 ++ 45 :: rest /\ ~ In 45 part1)).
  { intro prefix. unfold switch_help.
    destruct (find (N.eqb 45) sl) as [i|] eqn:Hf.
    - destruct (find_dash_some sl i Hf) as [Hsplit Hnot].
      split; [split; [discriminate | intro H; exfalso; apply H; rewrite Hsplit;
                                     apply in_or_app; right; left; reflexivity] |].
      intros _. exists (firstn i sl), (skipn (S i) sl).
      split; [|split; assumption].
      unfold split_at. rewrite (skipn_dash sl i Hf). reflexivity.
    - pose proof (find_dash_none sl Hf) as Hn.
      split; [split; [intros _; exact Hn | reflexivity] | intro H; contradiction]. }
  destruct Hkind as [-> | [x [y ->]]].
  - destruct (Hsw (u "Switch the numbers: ")) as [Hnone Hsome].
    split.
    + rewrite <- Hnone. destruct (switch_help _ sl); simpl; split; congruence.
    + intro Hin. destruct (Hsome Hin) as [part1 [rest [Heq [Hs Hn]]]].
      rewrite Heq. eexists. exists part1, rest. repeat split; assumption.
  - destruct (Hsw (u "Switch the characters: ")) as [Hnone Hsome].
    split.
    + rewrite <- Hnone. destruct (switch_help _ sl); simpl; split; congruence.
    + intro Hin. destruct (Hsome Hin) as [part1 [rest [Heq [Hs Hn]]]].
      rewrite Heq. eexists. exists part1, rest. repeat split; assumption.
Qed.

End DiagnosticFacts.

Lemma starts_with_backslash_p (s : str) :
  starts_with (u "\p") s = true \/ starts_with (u "\P") s = true ->
  exists c rest, s = 92 :: c :: rest /\ (c = 112 \/ c = 80).
Proof.
  change (u "\p") with [92; 112]. change (u "\P") with [92; 80].
  intros Hs. destruct s as [|a [|b rest]]; cbn [starts_with] in Hs;
    rewrite ?andb_true_iff, ?N.eqb_eq in Hs.
  - destruct Hs; discriminate.
  - destruct Hs as [[_ H]|[_ H]]; discriminate.
  - exists b, rest. destruct Hs as [[-> [-> _]]|[-> [-> _]]]; auto.
Qed.

(** C8 (as amended): for a slice starting with [\p] or [\P], as the lexer
    reports with [BackslashProperty], the help suggests [[!name]] when the
    slice starts with [\P] but not [\P{^], or with [\p{^], and [[name]]
    otherwise; [name] is the slice after [\p]/[\P], trimmed of braces and
    carets, with every ['+'] and ['-'] replaced by ['_']. *)
Theorem backslash_property_help_negation (s : str)
    (Hs : starts_with (u "\p") s = true \/ starts_with (u "\P") s = true) :
  get_backslash_property_help s
  = Some (Some (u "Replace `" ++ s ++ u "` with `["
                ++ (if property_negated s then u "!" else [])
                ++ property_name s ++ u "]`")).
Proof.
  destruct (starts_with_backslash_p s Hs) as [c [rest [-> Hc]]].
  unfold get_backslash_property_help, property_name.
  rewrite slice_from_ascii2 by (destruct Hc as [-> | ->]; reflexivity).
  fold (property_negated (92 :: c :: rest)).
  destruct (property_negated (92 :: c :: rest)); reflexivity.
Qed.

(** C8: counterexample. [\PL] gets the negated suggestion [[!L]] and
    [\P{^L}] the plain one [[L]], opposite to the spec's reading, which
    negates exactly [\P{...}] and [\p{^...}]. *)
Lemma backslash_property_help_counterexample :
  get_backslash_property_help (u "\PL") <> spec_property_help (u "\PL") /\
  get_backslash_property_help (u "\P{^L}") <> spec_property_help (u "\P{^L}").
Proof. split; vm_compute; congruence. Qed.

Lemma backslash_property_help_negation_witness :
  get_backslash_property_help (u "\PL") = Some (Some (u "Replace `\PL` with `[!L]`")).
Proof.
  rewrite (backslash_property_help_negation (u "\PL") (or_intror eq_refl)).
  reflexivity.
Defined.

Lemma invalid_escape_narrows_span_witness :
  exists d,
    from_parse_error (fun _ => []) false
      (MkParseError (InvalidEscapeInStringAt 2) (SpanRange 1 5)) [120; 34; 92; 113; 34]
    = Some d /\ span d = SpanRange 2 4 /\ help d = None.
Proof.
  apply (invalid_escape_narrows_span (fun _ => []) false 1 5 2 [120; 34; 92; 113; 34]).
  - vm_compute. discriminate.
  - lia.
Defined.

Lemma from_parse_errors_flattens_witness :
  (exists ds dss,
     from_parse_errors (fun _ => []) false
       (MkParseError (Multiple [MkParseError Dot SpanEmpty;
                                MkParseError (Multiple [MkParseError RecursionLimit (SpanRange 0 1);
                                                        MkParseError UnallowedDoubleNot SpanEmpty])
                                  SpanEmpty]) SpanEmpty) (u "ab") = Some ds /\
     ds = List.concat dss /\ List.length ds = list_sum (map (@List.length Diagnostic) dss)) /\
  (forall ds, from_parse_errors (fun _ => []) false (MkParseError Dot SpanEmpty) (u "ab") = Some ds ->
              List.length ds = 1%nat).
Proof.
  split.
  - destruct (from_parse_errors (fun _ => []) false
       (MkParseError (Multiple [MkParseError Dot SpanEmpty;
                                MkParseError (Multiple [MkParseError RecursionLimit (SpanRange 0 1);
                                                        MkParseError UnallowedDoubleNot SpanEmpty])
                                  SpanEmpty]) SpanEmpty) (u "ab")) as [ds|] eqn:E;
      [| vm_compute in E; discriminate].
    destruct (proj1 (from_parse_errors_flattens (fun _ => []) false (u "ab")) _ _ _ E)
      as [dss [_ [H1 H2]]].
    exists ds, dss. split; [reflexivity|]. split; assumption.
  - apply (proj2 (proj2 (proj2 (from_parse_errors_flattens (fun _ => []) false (u "ab")))
                          (MkParseError Dot SpanEmpty) (fun xs H => ltac:(discriminate H)))).
Defined.

Lemma switch_help_requires_dash_witness :
  (exists d, from_parse_error (fun _ => []) false
               (MkParseError RangeIsNotIncreasing (SpanRange 0 5)) (u "5 - 3") = Some d) /\
  from_parse_error (fun _ => []) false
    (MkParseError (CharClass (DescendingRange 122 97)) SpanEmpty) (u "za") = None.
Proof.
  split.
  - destruct (proj2 (switch_help_requires_dash (fun _ => []) false RangeIsNotIncreasing
                       (SpanRange 0 5) (u "5 - 3") (u "5 - 3") (or_introl eq_refl) eq_refl)
                    (or_intror (or_intror (or_introl eq_refl))))
      as [d [_ [_ [Hd _]]]].
    exists d. exact Hd.
  - apply (proj2 (proj1 (switch_help_requires_dash (fun _ => []) false
                           (CharClass (DescendingRange 122 97)) SpanEmpty (u "za") (u "za")
                           (or_intror (ex_intro _ 122 (ex_intro _ 97 eq_refl))) eq_refl))).
    intros [H|[H|H]]; [discriminate | discriminate | exact H].
Defined.

(** * The lexer *)

Lemma starts_with_length (pat s : str) :
  starts_with pat s = true -> (List.length pat <= List.length s)%nat.
Proof.
  revert s; induction pat as [|p pat IH]; intros [|c s] H; simpl in *;
    try lia; try discriminate.
  apply andb_true_iff in H as [_ H]. apply IH in H. lia.
Qed.

Lemma count_while_le (p : char -> bool) (s : str) :
  (count_while p s <= List.length s)%nat.
Proof. induction s as [|c s IH]; simpl; [lia|]. destruct (p c); lia. Qed.

Lemma find_lt (p : char -> bool) (s : str) (i : nat) :
  find p s = Some i -> (i < List.length s)%nat.
Proof.
  revert i; induction s as [|c s IH]; intros i H; [discriminate|].
  change (find p (c :: s)) with (if p c then Some O else option_map S (find p s)) in H.
  destruct (p c); [injection H as <-; simpl; lia|].
  destruct (find p s) as [j|] eqn:E; [|discriminate].
  injection H as <-. specialize (IH j eq_refl). simpl. lia.
Qed.

Lemma find_unescaped_quote_lt (s : str) (i : nat) :
  find_unescaped_quote s = Some i -> (i < List.length s)%nat.
Proof.
  revert i. induction s as [s IH] using (induction_ltof1 _ (@List.length _)).
  unfold ltof in IH. intros i H. destruct s as [|c rest]; [discriminate|].
  cbn [find_unescaped_quote] in H.
  destruct (c =? 34); [injection H as <-; simpl; lia|].
  destruct (c =? 92).
  - destruct rest as [|d rest']; [discriminate|].
    destruct (find_unescaped_quote rest') as [j|] eqn:E; [|discriminate].
    injection H as <-. apply IH in E; simpl in *; lia.
  - destruct (find_unescaped_quote rest) as [j|] eqn:E; [|discriminate].
    injection H as <-. apply IH in E; simpl in *; lia.
Qed.

Lemma bounded_lit (pat : str) : bounded (m_lit pat).
Proof.
  intros s n v H. unfold m_lit in H. destruct (starts_with pat s) eqn:E; [|discriminate].
  injection H as <- _. now apply starts_with_length.
Qed.

Lemma bounded_char (c : char) : bounded (m_char c).
Proof. apply bounded_lit. Qed.

Lemma bounded_char_is (p : char -> bool) : bounded (m_char_is p).
Proof.
  intros [|c s] n v H; [discriminate|]. simpl in H.
  destruct (p c); [injection H as <- _; simpl; lia | discriminate].
Qed.

Lemma bounded_alts (ms : list Matcher) : Forall bounded ms -> bounded (m_alts ms).
Proof.
  induction 1 as [|m ms Hm _ IH]; intros s n v H; [discriminate|].
  simpl in H. destruct (m s) as [r|] eqn:E.
  - injection H as ->. eapply Hm; eassumption.
  - eapply IH; eassumption.
Qed.

Lemma bounded_seq (m1 m2 : Matcher) : bounded m1 -> bounded m2 -> bounded (m_seq m1 m2).
Proof.
  intros H1 H2 s n v H. unfold m_seq in H.
  destruct (m1 s) as [[n1 v1]|] eqn:E1; [|discriminate].
  destruct (m2 (skipn n1 s)) as [[n2 v2]|] eqn:E2; [|discriminate].
  injection H as <- _. apply H1 in E1. apply H2 in E2.
  rewrite length_skipn in E2. lia.
Qed.

Lemma bounded_many0 (p : char -> bool) : bounded (m_many0 p).
Proof. intros s n v H. injection H as <- _. apply count_while_le. Qed.

Lemma bounded_many1 (p : char -> bool) : bounded (m_many1 p).
Proof.
  intros s n v H. unfold m_many1 in H. pose proof (count_while_le p s).
  destruct (count_while p s); [discriminate|]. injection H as <- _. exact H0.
Qed.

Lemma bounded_ctx (h : ParseErrorMsg) (m : Matcher) : bounded m -> bounded (m_ctx h m).
Proof.
  intros Hm s n v H. unfold m_ctx in H. destruct (m s) as [[n' v']|] eqn:E; [|discriminate].
  injection H as <- _. eapply Hm; eassumption.
Qed.

Lemma pos_lit (pat : str) : pat <> [] -> pos_first (m_lit pat).
Proof.
  intros Hp s n v H. unfold m_lit in H. destruct (starts_with pat s); [|discriminate].
  injection H as <- _. destruct pat; [contradiction | simpl; lia].
Qed.

Lemma pos_char (c : char) : pos_first (m_char c).
Proof. apply pos_lit. discriminate. Qed.

Lemma pos_char_is (p : char -> bool) : pos_first (m_char_is p).
Proof.
  intros [|c s] n v H; [discriminate|]. simpl in H.
  destruct (p c); [injection H as <- _; lia | discriminate].
Qed.

Lemma pos_many1 (p : char -> bool) : pos_first (m_many1 p).
Proof.
  intros s n v H. unfold m_many1 in H.
  destruct (count_while p s); [discriminate|]. injection H as <- _. lia.
Qed.

Lemma pos_seq (m1 m2 : Matcher) : pos_first m1 -> pos_first (m_seq m1 m2).
Proof.
  intros H1 s n v H. unfold m_seq in H.
  destruct (m1 s) as [[n1 v1]|] eqn:E1; [|discriminate].
  destruct (m2 (skipn n1 s)) as [[n2 v2]|]; [|discriminate].
  injection H as <- _. apply H1 in E1. lia.
Qed.

Lemma capture_ctx_bounds (m : Matcher) (s : str) (len : nat) (err : ParseErrorMsg) :
  bounded m -> pos_first m -> capture_ctx m s = Some (len, err) ->
  (1 <= len <= List.length s)%nat.
Proof.
  intros Hb Hp H. unfold capture_ctx in H.
  destruct (m s) as [[n [e|]]|] eqn:E; try discriminate.
  injection H as <- _. split; [eapply Hp | eapply Hb]; eassumption.
Qed.

Create HintDb matcher.
#[local] Hint Resolve bounded_lit bounded_char bounded_char_is bounded_alts bounded_seq
  bounded_many0 bounded_many1 bounded_ctx pos_char pos_char_is pos_many1 pos_seq : matcher.
#[local] Hint Constructors Forall : matcher.
#[local] Hint Extern 1 (_ <> []) => (cbv; discriminate) : matcher.
#[local] Hint Extern 2 (pos_first (m_lit _)) => (apply pos_lit) : matcher.

Lemma parse_backslash_bounds (input : str) (len : nat) (err : ParseErrorMsg) :
  parse_backslash input = Some (len, err) -> (1 <= len <= List.length input)%nat.
Proof.
  unfold parse_backslash. cbv zeta. apply capture_ctx_bounds; auto 20 with matcher.
Qed.

Lemma parse_special_group_bounds (input : str) (len : nat) (err : ParseErrorMsg) :
  parse_special_group input = Some (len, err) -> (1 <= len <= List.length input)%nat.
Proof.
  unfold parse_special_group. cbv zeta. apply capture_ctx_bounds; auto 20 with matcher.
Qed.

Lemma blen_app (p q : str) : blen (p ++ q) = blen p + blen q.
Proof. induction p as [|c p IH]; simpl; [reflexivity|]. rewrite IH. lia. Qed.

Lemma blen_pos (s : str) : s <> [] -> 1 <= blen s.
Proof. destruct s as [|c s]; [contradiction|]. intros _. simpl. pose proof (len_utf8_pos c). lia. Qed.

Lemma trim_start_matches_split (p : char -> bool) (s : str) :
  exists pre, s = pre ++ trim_start_matches p s /\ forallb p pre = true.
Proof.
  induction s as [|c s [pre [Hs Hp]]]; [exists []; auto|].
  simpl. destruct (p c) eqn:E.
  - exists (c :: pre). simpl. rewrite E, Hp. split; [now f_equal | reflexivity].
  - exists []. auto.
Qed.

Lemma skippable_ws_app (ws s : str) :
  forallb is_whitespace ws = true -> skippable s -> skippable (ws ++ s).
Proof.
  induction ws as [|c ws IH]; simpl; [auto|].
  intros H Hs. apply andb_true_iff in H as [H1 H2]. constructor; auto.
Qed.

Lemma skip_comments_split (fuel : nat) (input : str) :
  exists p, input = p ++ skip_comments fuel input /\ skippable p.
Proof.
  revert input. induction fuel as [|f IH]; intros input.
  - exists []. split; [reflexivity | constructor].
  - destruct input as [|c rest]; [exists []; split; [reflexivity | constructor]|].
    cbn [skip_comments]. destruct (N.eqb_spec c 35) as [->|Hc];
      [| exists []; split; [reflexivity | constructor]].
    set (r := trim_start_matches (fun c => negb (c =? 10)) (35 :: rest)).
    destruct (trim_start_matches_split (fun c => negb (c =? 10)) rest) as [body [Hb Hbody]].
    assert (Hr : r = trim_start_matches (fun c => negb (c =? 10)) rest) by reflexivity.
    destruct (trim_start_matches_split is_whitespace r) as [ws [Hws Hwsp]].
    destruct (IH (trim_start r)) as [p' [Hp' Hsk]].
    exists (35 :: body ++ ws ++ p'). split.
    + rewrite Hb at 1. rewrite <- Hr. rewrite Hws at 1. unfold trim_start in Hp'.
      rewrite Hp' at 1. simpl. now rewrite !app_assoc.
    + constructor; [exact Hbody|]. apply skippable_ws_app; assumption.
Qed.

Lemma skip_split (input : str) :
  exists p, input = p ++ skip input /\ skippable p.
Proof.
  unfold skip. cbv zeta.
  destruct (trim_start_matches_split is_whitespace input) as [ws [Hws Hwsp]].
  destruct (skip_comments_split (S (List.length (trim_start input))) (trim_start input))
    as [p [Hp Hsk]].
  exists (ws ++ p). split.
  - unfold trim_start in Hp. rewrite Hws at 1. rewrite Hp at 1. now rewrite app_assoc.
  - now apply skippable_ws_app.
Qed.

Section LexerFacts.
Variable is_alphabetic : char -> bool.
Variable is_alphanumeric : char -> bool.

Lemma consume_bounds (input : str) (c : char) (rest : str) :
  input = c :: rest ->
  (1 <= fst (consume is_alphabetic is_alphanumeric input c) <= List.length input)%nat.
Proof.
  intros Hin. unfold consume.
  repeat match goal with
  | |- context [if ?b then _ else _] => destruct b eqn:?
  | |- context [match ?m with _ => _ end] =>
      let E := fresh "E" in destruct m eqn:E
  end; cbn [fst];
  repeat match goal with
  | H : starts_with _ _ = true |- _ => apply starts_with_length in H; cbn in H
  | H : parse_backslash _ = Some _ |- _ => apply parse_backslash_bounds in H
  | H : parse_special_group _ = Some _ |- _ => apply parse_special_group_bounds in H
  | H : find _ _ = Some _ |- _ => apply find_lt in H
  | H : find_unescaped_quote _ = Some _ |- _ => apply find_unescaped_quote_lt in H
  | H : m_many1 _ _ = Some _ |- _ =>
      pose proof (bounded_many1 _ _ _ _ H); apply pos_many1 in H
  | H : m_seq (m_lit _) _ _ = Some _ |- _ =>
      pose proof (bounded_seq _ _ (bounded_lit _) (bounded_many1 _) _ _ _ H);
      apply pos_seq in H; [| apply pos_lit; cbv; discriminate]
  | H : m_seq (m_char_is _) _ _ = Some _ |- _ =>
      pose proof (bounded_seq _ _ (bounded_char_is _) (bounded_many0 _) _ _ _ H);
      apply (pos_seq _ _ (pos_char_is _)) in H
  end;
  subst input; cbn [skipn List.length] in *; lia.
Qed.

Lemma tokenize_loop_covers (fuel : nat) (input : str) (off : N) :
  (List.length input < fuel)%nat ->
  covers off input (tokenize_loop is_alphabetic is_alphanumeric fuel input off).
Proof.
  revert input off. induction fuel as [|f IH]; intros input off Hlen; [lia|].
  cbn [tokenize_loop].
  destruct (skip_split input) as [p [Hp Hsk]].
  assert (Hoff : off + (blen input - blen (skip input)) = off + blen p).
  { rewrite Hp at 1. rewrite blen_app. lia. }
  rewrite Hoff.
  assert (Hl : (List.length (skip input) <= List.length input)%nat).
  { rewrite Hp at 2. rewrite length_app. lia. }
  destruct (skip input) as [|c rest] eqn:Es.
  - simpl. rewrite Hp, app_nil_r. exact Hsk.
  - pose proof (consume_bounds (c :: rest) c rest eq_refl) as Hb.
    destruct (consume is_alphabetic is_alphanumeric (c :: rest) c) as [len tok].
    cbn [fst] in Hb. cbn [covers].
    exists p, (firstn len (c :: rest)), (skipn len (c :: rest)).
    split; [now rewrite firstn_skipn|].
    split; [exact Hsk|].
    split.
    { destruct len as [|len]; [lia|]. discriminate. }
    split; [reflexivity|].
    apply IH. rewrite length_skipn. lia.
Qed.

Lemma covers_increasing (toks : list (Token.Token * Span)) (off : N) (input : str) :
  covers off input toks ->
  spans_increasing toks /\
  Forall (fun t => match snd t with SpanRange a _ => off <= a | SpanEmpty => False end) toks.
Proof.
  revert off input. induction toks as [|[tok sp] rest IH]; intros off input H;
    [split; [exact I | constructor]|].
  destruct H as [sk [cons [rem [_ [_ [Hne [-> Hc]]]]]]].
  destruct (IH _ _ Hc) as [Hinc Hall].
  pose proof (blen_pos cons Hne).
  split.
  - cbn [spans_increasing]. split; [lia|]. split; assumption.
  - constructor; [cbn; lia|].
    eapply Forall_impl; [|exact Hall].
    intros [t [a b|]]; cbn; lia.
Qed.

(** C9: [tokenize] covers its input: the input is, in order, a skippable
    run of whitespace and [#] comments, the bytes of a first token, another
    skippable run, the bytes of the next token, and so on, ending in a
    skippable run; each token's span is the byte range of what it consumed,
    which is at least one character. Hence the spans are non-empty and
    strictly increasing, and no input is skipped except whitespace and
    comments. *)
Theorem tokenize_covers_input (input : str) :
  covers 0 input (tokenize is_alphabetic is_alphanumeric input) /\
  spans_increasing (tokenize is_alphabetic is_alphanumeric input).
Proof.
  assert (H : covers 0 input (tokenize is_alphabetic is_alphanumeric input)).
  { apply tokenize_loop_covers. lia. }
  split; [exact H | exact (proj1 (covers_increasing _ _ _ H))].
Qed.
End LexerFacts.

Lemma find_none_contains (c : char) (s : str) :
  find (N.eqb c) s = None <-> contains c s = false.
Proof.
  unfold contains. induction s as [|x s IH]; [tauto|].
  change (find (N.eqb c) (x :: s)) with (if N.eqb c x then Some O else option_map S (find (N.eqb c) s)).
  cbn [existsb]. destruct (N.eqb c x); simpl; [split; discriminate|].
  rewrite <- IH. destruct (find (N.eqb c) s); simpl; split; congruence.
Qed.

Section DiagnosticTotality.
Variable kind_to_string : ParseErrorKind -> str.
Variable feature_suggestions : bool.
Variable compile_kind_to_string : CompileErrorKind -> str.

(** X6: [Diagnostic::from_parse_error] panics (here [None]) exactly when
    the error's range does not slice the source, when a backslash error's
    slice does not start with a backslash, when a [\u], [\x], [\u{...}],
    [\g]/[\k] or [\p] error's slice has no character boundary after two
    bytes, when a descending range's slice has no ['-'], or when an invalid
    escape sits at offset 0 of the source; every other error gets a
    diagnostic. *)
Theorem from_parse_error_none_iff (e : ParseError) (src : str) :
  from_parse_error kind_to_string feature_suggestions e src = None <->
  match error_slice e src with
  | None => True
  | Some sl =>
      match pe_kind e with
      | LexErrorWithMessage Backslash => starts_with (u "\") sl = false
      | LexErrorWithMessage (BackslashU4 | BackslashX2 | BackslashUnicode | BackslashGK
                             | BackslashProperty) => slice_from 2 sl = None
      | RangeIsNotIncreasing | CharClass (DescendingRange _ _) => contains 45 sl = false
      | InvalidEscapeInStringAt k => fst (error_range e src) + k = 0
      | _ => False
      end
  end.
Proof.
  unfold from_parse_error, error_slice.
  destruct (error_range e src) as [a b].
  destruct (slice a b src) as [sl|]; [|tauto].
  destruct e as [k sp]. cbn [pe_kind].
  destruct k as [m| | |ce|cs| | | |re|k| | |]; cbv beta iota;
    try (split; [discriminate | contradiction]).
  - destruct m; cbn [get_parse_error_msg_help option_map]; cbv beta iota;
      try (split; [discriminate | contradiction]).
    + unfold get_named_capture_help. destruct (contains 45 _); split; (discriminate || contradiction).
    + unfold get_backslash_help. destruct (starts_with (u "\") sl); cbn [negb].
      * destruct (skipn 1 sl); cbn [option_map]; cbv beta iota; split; discriminate.
      * cbn [option_map]; cbv beta iota. tauto.
    + unfold get_backslash_help_u4. destruct (slice_from 2 sl); simpl; split; congruence.
    + unfold get_backslash_help_x2. destruct (slice_from 2 sl); simpl; split; congruence.
    + unfold get_backslash_help_unicode. destruct (slice_from 2 sl); simpl; split; congruence.
    + unfold get_backslash_gk_help. destruct (slice_from 2 sl); simpl; [|split; congruence].
      destruct (list_eq_dec _ _ _); cbn [option_map]; cbv beta iota; split; congruence.
    + unfold get_backslash_property_help. destruct (slice_from 2 sl); simpl; [|split; congruence].
      destruct (_ || _); cbn [option_map]; cbv beta iota; split; congruence.
  - unfold switch_help. rewrite <- find_none_contains.
    destruct (find (N.eqb 45) sl); [destruct (split_at _ _)|]; simpl; split; congruence.
  - destruct ce as [? [?|]| | |]; try destruct feature_suggestions; cbv beta iota;
      try (split; [discriminate | contradiction]).
    all: unfold switch_help; rewrite <- find_none_contains.
    all: destruct (find (N.eqb 45) sl); [destruct (split_at _ _)|]; simpl; split; congruence.
  - destruct cs; [destruct (forallb _ _)|]; cbv beta iota; split; (discriminate || contradiction).
  - destruct re; cbv beta iota; split; (discriminate || contradiction).
  - cbn [span_range_unchecked span_new fst].
    destruct (a + k =? 0) eqn:E; [apply N.eqb_eq in E | apply N.eqb_neq in E];
      split; congruence.
Qed.

(** X7: a diagnostic built by [Diagnostic::from_parse_error] is an error
    whose message is the error's text, whose source is the given source, and
    whose span is the error's range (the whole source for an empty span),
    except for invalid escapes, which narrow it. *)
Theorem from_parse_error_span (e : ParseError) (src : str) (d : Diagnostic)
    (Hd : from_parse_error kind_to_string feature_suggestions e src = Some d)
    (Hk : forall k, pe_kind e <> InvalidEscapeInStringAt k) :
  span d = (let (a, b) := error_range e src in SpanRange a b) /\
  severity d = SevError /\ source_code d = Some src /\ msg d = kind_to_string (pe_kind e).
Proof.
  revert Hd. unfold from_parse_error.
  destruct (error_range e src) as [a b].
  destruct (slice a b src) as [sl|]; [|discriminate].
  destruct e as [k sp]. cbn [pe_kind] in *.
  assert (Hgen : forall o : option (option str * Span),
    (forall h sp', o = Some (h, sp') -> sp' = span_new a b) ->
    match o with
    | Some (help, span) =>
        Some {| severity := SevError; code := None; msg := kind_to_string k;
                source_code := Some src; help := help; span := span |}
    | None => None
    end = Some d ->
    span d = SpanRange a b /\ severity d = SevError /\ source_code d = Some src /\
    msg d = kind_to_string k).
  { intros [[h sp']|] Ho H; [|discriminate]. injection H as <-. simpl.
    rewrite (Ho h sp' eq_refl). auto. }
  apply Hgen. intros h sp' Ho.
  destruct k as [m| | |ce|cs| | | |re|k| | |]; try (injection Ho as _ <-; reflexivity).
  - destruct (get_parse_error_msg_help sl m); [injection Ho as _ <-; reflexivity | discriminate].
  - destruct (switch_help _ sl); [injection Ho as _ <-; reflexivity | discriminate].
  - destruct ce as [? [?|]| | |]; try destruct feature_suggestions;
      try (injection Ho as _ <-; reflexivity).
    all: destruct (switch_help _ sl); [injection Ho as _ <-; reflexivity | discriminate].
  - destruct cs; [destruct (forallb _ _)|]; injection Ho as _ <-; reflexivity.
  - destruct re; injection Ho as _ <-; reflexivity.
  - exfalso. exact (Hk k eq_refl).
Qed.

(** X8: for a compile error that is not a parse error,
    [Diagnostic::from_compile_errors] returns the one diagnostic of
    [from_compile_error] but without help: the "Perhaps you meant" suggestion
    that [from_compile_error] gives unknown variables and references when the
    suggestions feature is on is dropped. *)
Theorem from_compile_errors_drops_suggestion (e : CompileError) (src : str)
    (Hk : forall k, ce_kind e <> CEParseError k) :
  exists d,
    from_compile_error kind_to_string feature_suggestions compile_kind_to_string e src = Some d /\
    from_compile_errors kind_to_string feature_suggestions compile_kind_to_string e src =
      Some [{| severity := severity d; code := code d; msg := msg d;
               source_code := source_code d; help := None; span := span d |}] /\
    (feature_suggestions = true -> forall found similar,
       ce_kind e = UnknownVariable found (Some similar) \/
       ce_kind e = UnknownReferenceName found (Some similar) ->
       help d = Some (u "Perhaps you meant `" ++ similar ++ u "`")).
Proof.
  unfold from_compile_error, from_compile_errors.
  destruct e as [k sp]. cbn [ce_kind ce_span] in *.
  destruct k as [k|f [s|]|f [s|]|n]; [exfalso; exact (Hk k eq_refl)| | | | |];
    eexists; (split; [reflexivity|]); (split; [reflexivity|]);
    intros Hfs found similar [H|H]; try discriminate; simpl;
    injection H as _ ->; now rewrite Hfs.
Qed.

End DiagnosticTotality.

(** Witnesses. *)
Lemma from_parse_error_span_witness :
  match from_parse_error (fun _ => u "dot") false (MkParseError Dot (SpanRange 0 1)) (u ".") with
  | Some d => span d = SpanRange 0 1 /\ severity d = SevError /\
              source_code d = Some (u ".") /\ msg d = u "dot"
  | None => False
  end.
Proof.
  destruct (from_parse_error _ _ _ _) as [d|] eqn:Hd; [|vm_compute in Hd; discriminate Hd].
  apply (from_parse_error_span (fun _ => u "dot") false (MkParseError Dot (SpanRange 0 1))
           (u ".") d Hd).
  intros k Hk. discriminate Hk.
Defined.

Lemma from_compile_errors_drops_suggestion_witness :
  let e := {| ce_kind := UnknownVariable (u "nmae") (Some (u "name")); ce_span := SpanRange 0 4 |} in
  exists d,
    from_compile_error (fun _ => u "") true (fun _ => u "unknown variable") e (u "nmae") = Some d /\
    from_compile_errors (fun _ => u "") true (fun _ => u "unknown variable") e (u "nmae") =
      Some [{| severity := severity d; code := code d; msg := msg d;
               source_code := source_code d; help := None; span := span d |}] /\
    (true = true -> forall found similar,
       ce_kind e = UnknownVariable found (Some similar) \/
       ce_kind e = UnknownReferenceName found (Some similar) ->
       help d = Some (u "Perhaps you meant `" ++ similar ++ u "`")).
Proof.
  intro e. apply from_compile_errors_drops_suggestion. intros k Hk. discriminate Hk.
Defined.

Import Token.

Lemma m_alts_some (ms : list Matcher) (s : str) r :
  m_alts ms s = Some r -> exists m, In m ms /\ m s = Some r.
Proof.
  induction ms as [|m ms IH]; [discriminate|]. simpl.
  destruct (m s) as [r'|] eqn:E.
  - intro H. injection H as ->. eauto.
  - intro H. destruct (IH H) as [m' [Hin Hm]]. eauto.
Qed.

Lemma m_ctx_some (h : ParseErrorMsg) (m : Matcher) (s : str) n v :
  m_ctx h m s = Some (n, v) -> v = Some h /\ exists v', m s = Some (n, v').
Proof.
  unfold m_ctx. destruct (m s) as [[n' v']|]; [|discriminate].
  intro H. injection H as <- <-. eauto.
Qed.

Lemma m_seq_some (m1 m2 : Matcher) (s : str) n v :
  m_seq m1 m2 s = Some (n, v) ->
  exists n1 v1 n2 v2, m1 s = Some (n1, v1) /\ m2 (skipn n1 s) = Some (n2, v2) /\
    n = (n1 + n2)%nat /\ v = match v2 with Some _ => v2 | None => v1 end.
Proof.
  unfold m_seq. destruct (m1 s) as [[n1 v1]|]; [|discriminate].
  destruct (m2 (skipn n1 s)) as [[n2 v2]|] eqn:E2; [|discriminate].
  intro H. injection H as <- <-. exists n1, v1, n2, v2. auto.
Qed.

Lemma first_ascii_lit (pat : str) :
  match pat with p :: _ => p < 128 | [] => False end -> first_ascii (m_lit pat).
Proof.
  intros Hp s n v H. unfold m_lit in H.
  destruct (starts_with pat s) eqn:E; [|discriminate]. injection H as <- _.
  destruct pat as [|p pat]; [contradiction|].
  destruct s as [|d s]; [discriminate|]. simpl in E.
  apply andb_true_iff in E as [E _]. apply N.eqb_eq in E as <-.
  exists p, s. simpl. repeat split; [assumption | lia].
Qed.

Lemma first_ascii_char (c : char) : c < 128 -> first_ascii (m_char c).
Proof. intro H. now apply first_ascii_lit. Qed.

Lemma first_ascii_alts (ms : list Matcher) : Forall first_ascii ms -> first_ascii (m_alts ms).
Proof.
  intros Hms s n v H. apply m_alts_some in H as [m [Hin Hm]].
  rewrite Forall_forall in Hms. exact (Hms m Hin s n v Hm).
Qed.

Lemma first_ascii_seq (m1 m2 : Matcher) : first_ascii m1 -> first_ascii (m_seq m1 m2).
Proof.
  intros H1 s n v H. apply m_seq_some in H as [n1 [v1 [n2 [v2 [E1 [_ [-> _]]]]]]].
  destruct (H1 _ _ _ E1) as [d [s' [-> [Hd Hn]]]]. exists d, s'. repeat split; [assumption | lia].
Qed.

Lemma first_ascii_ctx (h : ParseErrorMsg) (m : Matcher) : first_ascii m -> first_ascii (m_ctx h m).
Proof.
  intros Hm s n v H. apply m_ctx_some in H as [_ [v' H]]. exact (Hm _ _ _ H).
Qed.

Create HintDb ascii_matcher.
#[local] Hint Resolve first_ascii_char first_ascii_alts first_ascii_seq first_ascii_ctx : ascii_matcher.
#[local] Hint Constructors Forall : ascii_matcher.
#[local] Hint Extern 1 (first_ascii (m_lit _)) => (apply first_ascii_lit; cbn; lia) : ascii_matcher.
#[local] Hint Extern 1 (_ < 128) => lia : ascii_matcher.

(** The hints [parse_special_group] attaches are those of groups. *)
Lemma parse_special_group_hint (s : str) (len : nat) (m : ParseErrorMsg) :
  parse_special_group s = Some (len, m) ->
  In m [GroupNonCapturing; GroupLookahead; GroupLookaheadNeg; GroupAtomic; GroupConditional;
        GroupBranchReset; GroupLookbehind; GroupLookbehindNeg; GroupNamedCapture;
        GroupPcreBackreference; GroupSubroutineCall; GroupComment; GroupOther].
Proof.
  unfold parse_special_group. cbv zeta. unfold capture_ctx.
  destruct (m_seq _ _ s) as [[n [v|]]|] eqn:E; try discriminate.
  intro H. injection H as _ <-.
  apply m_seq_some in E as [n1 [v1 [n2 [v2 [E1 [E2 [_ Ev]]]]]]].
  unfold m_lit in E1. destruct (starts_with _ s); [|discriminate]. injection E1 as _ <-.
  destruct v2 as [v2|]; [|discriminate]. injection Ev as ->.
  apply m_alts_some in E2 as [mm [Hin Hm]].
  repeat (destruct Hin as [<-|Hin];
          [apply m_ctx_some in Hm as [Hm _]; injection Hm as ->; simpl; tauto|]).
  destruct Hin.
Qed.

(** A hint of [parse_backslash] follows a backslash; except for [Backslash]
    itself, the next character is ASCII and part of the match. *)
Lemma parse_backslash_hint (s : str) (len : nat) (m : ParseErrorMsg) :
  parse_backslash s = Some (len, m) ->
  exists r, s = 92 :: r /\
    (m = Backslash \/
     ((m = BackslashUnicode \/ m = BackslashU4 \/ m = BackslashX2 \/ m = BackslashGK \/
       m = BackslashProperty) /\
      exists d r', r = d :: r' /\ d < 128 /\ (2 <= len)%nat)).
Proof.
  unfold parse_backslash. cbv zeta. unfold capture_ctx.
  destruct (m_seq _ _ s) as [[n [v|]]|] eqn:E; try discriminate.
  intro H. injection H as <- <-.
  apply m_seq_some in E as [n1 [v1 [n2 [v2 [E1 [E2 [-> Ev]]]]]]].
  unfold m_char, m_lit in E1. destruct s as [|c r]; [discriminate|].
  cbn [starts_with] in E1. destruct (N.eqb_spec 92 c) as [<-|]; [|discriminate].
  injection E1 as <- <-. exists r. split; [reflexivity|]. cbn [skipn] in E2.
  destruct v2 as [v2|]; [|discriminate]. injection Ev as ->.
  apply m_alts_some in E2 as [mm [Hin Hm]].
  repeat (destruct Hin as [<-|Hin];
          [apply m_ctx_some in Hm as [Hv [v' Hm]]; injection Hv as ->;
           first [ left; reflexivity
                 | right; split; [tauto|];
                   let Hf := fresh in
                   assert (Hf : first_ascii (ltac:(match type of Hm with ?x _ = _ => exact x end)))
                     by (auto 20 with ascii_matcher);
                   destruct (Hf _ _ _ Hm) as [d [r' [-> [Hd Hn]]]];
                   exists d, r'; repeat split; [assumption | lia] ]|]).
  destruct Hin.
Qed.

Lemma byte_to_char_index_app (p s : str) (n : N) :
  byte_to_char_index (blen p + n) (p ++ s) =
  option_map (Nat.add (List.length p)) (byte_to_char_index n s).
Proof.
  induction p as [|c p IH].
  - simpl. destruct (byte_to_char_index n s); reflexivity.
  - cbn [blen app List.length]. pose proof (len_utf8_pos c).
    cbn [byte_to_char_index].
    destruct (N.eqb_spec (len_utf8 c + blen p + n) 0); [lia|].
    destruct (N.leb_spec (len_utf8 c) (len_utf8 c + blen p + n)); [|lia].
    replace (len_utf8 c + blen p + n - len_utf8 c) with (blen p + n) by lia.
    rewrite IH. destruct (byte_to_char_index n s); reflexivity.
Qed.

Lemma byte_to_char_index_zero (s : str) : byte_to_char_index 0 s = Some O.
Proof. destruct s; reflexivity. Qed.

Lemma slice_mid (p c q : str) :
  slice (blen p) (blen p + blen c) (p ++ c ++ q) = Some c.
Proof.
  unfold slice.
  rewrite <- (N.add_0_r (blen p)) at 1. rewrite byte_to_char_index_app, byte_to_char_index_zero.
  rewrite byte_to_char_index_app.
  rewrite <- (N.add_0_r (blen c)). rewrite byte_to_char_index_app, byte_to_char_index_zero.
  cbn [option_map]. rewrite !Nat.add_0_r.
  replace (Nat.leb (List.length p) (List.length p + List.length c)) with true
    by (symmetry; apply Nat.leb_le; lia).
  f_equal. rewrite app_assoc, <- length_app, firstn_app, firstn_all, Nat.sub_diag.
  cbn [firstn]. rewrite app_nil_r, skipn_app, skipn_all, Nat.sub_diag. reflexivity.
Qed.

Lemma count_while_split (p : char -> bool) (s : str) :
  forallb p (firstn (count_while p s) s) = true /\
  match skipn (count_while p s) s with d :: _ => p d = false | [] => True end.
Proof.
  induction s as [|c s IH]; simpl; [auto|].
  destruct (p c) eqn:E; simpl; [rewrite E; exact IH | auto].
Qed.

Lemma firstn_app_inv (n : nat) (s post : str) :
  firstn n s ++ post = s -> post = skipn n s.
Proof.
  intro H. rewrite <- (firstn_skipn n s) in H at 2. now apply app_inv_head in H.
Qed.

Lemma find_split (p : char -> bool) (s : str) (i : nat) :
  find p s = Some i ->
  exists y rest, s = firstn i s ++ y :: rest /\ p y = true /\
    forallb (fun x => negb (p x)) (firstn i s) = true /\ List.length (firstn i s) = i.
Proof.
  revert i; induction s as [|c s IH]; intros i H; [discriminate|].
  change (find p (c :: s)) with (if p c then Some O else option_map S (find p s)) in H.
  destruct (p c) eqn:E.
  - injection H as <-. exists c, s. simpl. auto.
  - destruct (find p s) as [j|]; [|discriminate]. injection H as <-.
    destruct (IH j eq_refl) as [y [rest [Hs [Hy [Hf Hl]]]]].
    exists y, rest. cbn [firstn List.length app forallb]. rewrite E, Hf, Hl. simpl.
    split; [now f_equal | auto].
Qed.

Lemma find_unescaped_quote_split (s : str) (i : nat) :
  find_unescaped_quote s = Some i ->
  exists rest, s = firstn i s ++ 34 :: rest /\
    find_unescaped_quote (firstn i s ++ [34]) = Some i /\ List.length (firstn i s) = i.
Proof.
  revert i. induction s as [s IH] using (induction_ltof1 _ (@List.length _)).
  unfold ltof in IH. intros i H. destruct s as [|c rest]; [discriminate|].
  cbn [find_unescaped_quote] in H.
  destruct (N.eqb_spec c 34) as [->|Hc34].
  - injection H as <-. exists rest. simpl. auto.
  - destruct (N.eqb_spec c 92) as [->|Hc92].
    + destruct rest as [|d rest']; [discriminate|].
      destruct (find_unescaped_quote rest') as [j|] eqn:E; [|discriminate].
      injection H as <-.
      destruct (IH rest' ltac:(simpl; lia) j E) as [tl [Hs [Hf Hl]]].
      exists tl. replace (j + 2)%nat with (S (S j)) by lia. cbn [firstn app List.length].
      split; [now rewrite <- Hs|]. split; [|now rewrite Hl].
      change (find_unescaped_quote (92 :: d :: (firstn j rest' ++ [34])))
        with (option_map (fun n => (n + 2)%nat) (find_unescaped_quote (firstn j rest' ++ [34]))).
      rewrite Hf. cbn [option_map]. f_equal; lia.
    + destruct (find_unescaped_quote rest) as [j|] eqn:E; [|discriminate].
      injection H as <-.
      destruct (IH rest ltac:(simpl; lia) j E) as [tl [Hs [Hf Hl]]].
      exists tl. cbn [firstn app List.length].
      rewrite Hl. split; [now rewrite <- Hs|]. split; [|reflexivity].
      cbn [find_unescaped_quote].
      destruct (N.eqb_spec c 34); [contradiction|].
      destruct (N.eqb_spec c 92); [contradiction|]. now rewrite Hf.
Qed.

Section LexerTokenFacts.
Variable is_alphabetic : char -> bool.
Variable is_alphanumeric : char -> bool.
Local Abbreviation consume' := (consume is_alphabetic is_alphanumeric).
Local Abbreviation tokenize_loop' := (tokenize_loop is_alphabetic is_alphanumeric).

Ltac consume_cases :=
  unfold consume;
  repeat match goal with
  | |- context [if ?b then _ else _] => destruct b eqn:?
  | |- context [match ?m with _ => _ end] => let E := fresh "E" in destruct m eqn:E
  end;
  let H := fresh "H" in
  intro H; injection H; intros; subst; try discriminate;
  repeat match goal with Hq : ErrorMsg _ = ErrorMsg _ |- _ =>
    injection Hq; clear Hq; intros; subst end.

Lemma consume_error_msg (c : char) (r : str) (len : nat) (m : ParseErrorMsg) :
  consume' (c :: r) c = (len, ErrorMsg m) ->
  (m = UnclosedString /\ len = List.length (c :: r)) \/ m = Caret \/ m = Dollar \/
  parse_special_group (c :: r) = Some (len, m) \/ parse_backslash (c :: r) = Some (len, m).
Proof.
  consume_cases;
  solve [ left; split; reflexivity | right; left; reflexivity | right; right; left; reflexivity
        | right; right; right; left; (assumption || reflexivity) | right; right; right; right; (assumption || reflexivity) ].
Qed.

Lemma consume_string (c : char) (r : str) (len : nat) :
  consume' (c :: r) c = (len, String) ->
  (c = 39 /\ exists i, find (N.eqb 39) r = Some i /\ len = (i + 2)%nat) \/
  (c = 34 /\ exists i, find_unescaped_quote r = Some i /\ len = (i + 2)%nat).
Proof.
  consume_cases; cbn [skipn] in *;
  repeat match goal with H : (c =? _) = true |- _ => apply N.eqb_eq in H; subst c end;
  eauto.
Qed.

Lemma consume_number (c : char) (r : str) (len : nat) :
  consume' (c :: r) c = (len, Number) ->
  len = count_while is_ascii_digit (c :: r) /\ (1 <= len)%nat.
Proof.
  consume_cases;
  match goal with H : m_many1 _ _ = Some _ |- _ =>
    unfold m_many1 in H; destruct (count_while is_ascii_digit (c :: r)) eqn:Ec;
    try discriminate H; injection H as <- _ end;
  (split; [reflexivity | lia]).
Qed.

Lemma consume_identifier (c : char) (r : str) (len : nat) :
  consume' (c :: r) c = (len, Identifier) ->
  (is_alphabetic c || (c =? 95)) = true /\
  len = S (count_while (fun x => is_alphanumeric x || (x =? 95)) r).
Proof.
  consume_cases;
  match goal with H : m_seq _ _ _ = Some _ |- _ =>
    unfold m_seq, m_char_is, m_many0 in H; cbn [skipn] in H;
    destruct (is_alphabetic c || (c =? 95)) eqn:Ea; try discriminate H;
    injection H as <- _ end; auto.
Qed.

Lemma tokenize_loop_tokens (fuel : nat) (input : str) (off : N) :
  (List.length input < fuel)%nat ->
  Forall (fun t : Token * Span => exists pre consumed post c r len,
    input = pre ++ consumed ++ post /\
    snd t = SpanRange (off + blen pre) (off + blen pre + blen consumed) /\
    consumed ++ post = c :: r /\
    consume' (c :: r) c = (len, fst t) /\
    consumed = firstn len (c :: r)) (tokenize_loop' fuel input off).
Proof.
  revert input off. induction fuel as [|f IH]; intros input off Hlen; [lia|].
  cbn [tokenize_loop].
  destruct (skip_split input) as [p [Hp Hsk]].
  assert (Hoff : off + (blen input - blen (skip input)) = off + blen p).
  { rewrite Hp at 1. rewrite blen_app. lia. }
  rewrite Hoff.
  assert (Hl : (List.length (skip input) <= List.length input)%nat).
  { rewrite Hp at 2. rewrite length_app. lia. }
  destruct (skip input) as [|c rest] eqn:Es; [constructor|].
  pose proof (consume_bounds is_alphabetic is_alphanumeric (c :: rest) c rest eq_refl) as Hb.
  destruct (consume' (c :: rest) c) as [len tok] eqn:Ec.
  cbn [fst] in Hb. constructor.
  - exists p, (firstn len (c :: rest)), (skipn len (c :: rest)), c, rest, len.
    rewrite firstn_skipn. repeat split; auto.
  - eapply Forall_impl; [|apply IH; rewrite length_skipn; lia].
    intros t [pre [cons [post [c' [r' [len' [Hin [Hsp [Hcp [Hcons' Hcd]]]]]]]]]].
    exists (p ++ firstn len (c :: rest) ++ pre), cons, post, c', r', len'.
    split; [|split; [|auto]].
    + rewrite Hp, <- !app_assoc. f_equal. rewrite <- Hin. symmetry; apply firstn_skipn.
    + rewrite Hsp, !blen_app. f_equal; lia.
Qed.
End LexerTokenFacts.

Lemma trim_start_matches_app (p : char -> bool) (xs s : str) :
  forallb p xs = true -> trim_start_matches p (xs ++ s) = trim_start_matches p s.
Proof.
  induction xs as [|x xs IH]; [reflexivity|]. cbn [forallb app].
  intro H. apply andb_true_iff in H as [H1 H2]. cbn [trim_start_matches]. rewrite H1. auto.
Qed.

Lemma trim_start_skippable (s : str) :
  skippable s ->
  trim_start s = [] \/
  exists body rest, trim_start s = 35 :: body ++ rest /\
    forallb (fun c => negb (c =? 10)) body = true /\ skippable rest.
Proof.
  induction 1 as [|c s Hc Hs IH|body s Hb Hs IH].
  - left. reflexivity.
  - unfold trim_start in *. cbn [trim_start_matches]. now rewrite Hc.
  - right. exists body, s. unfold trim_start. cbn [trim_start_matches].
    replace (is_whitespace 35) with false by reflexivity. auto.
Qed.

Lemma trim_start_idem (s : str) : trim_start (trim_start s) = trim_start s.
Proof.
  unfold trim_start. induction s as [|c s IH]; [reflexivity|].
  cbn [trim_start_matches]. destruct (is_whitespace c) eqn:E; [exact IH|].
  cbn [trim_start_matches]. now rewrite E.
Qed.

Lemma skippable_trim_start (s : str) : skippable s -> skippable (trim_start s).
Proof.
  intro H. destruct (trim_start_skippable s H) as [->|[body [rest [-> [Hb Hr]]]]];
    constructor; assumption.
Qed.

Lemma skippable_trim_line (s : str) :
  skippable s -> skippable (trim_start_matches (fun c => negb (c =? 10)) s).
Proof.
  induction 1 as [|c s Hc Hs IH|body s Hb Hs IH].
  - constructor.
  - cbn [trim_start_matches]. destruct (negb (c =? 10)); [exact IH|]. now constructor.
  - change (35 :: body ++ s) with ((35 :: body) ++ s).
    rewrite trim_start_matches_app; [exact IH|]. cbn [forallb]. now apply andb_true_iff; split; [reflexivity | exact Hb].
Qed.

Lemma trim_start_matches_length (p : char -> bool) (s : str) :
  (List.length (trim_start_matches p s) <= List.length s)%nat.
Proof.
  induction s as [|c s IH]; [reflexivity|]. cbn [trim_start_matches].
  destruct (p c); cbn [List.length]; lia.
Qed.

Lemma skip_comments_skippable (fuel : nat) (s : str) :
  skippable s -> trim_start s = s -> (List.length s < fuel)%nat -> skip_comments fuel s = [].
Proof.
  revert s. induction fuel as [|f IH]; intros s Hs Ht Hl; [lia|].
  destruct (trim_start_skippable s Hs) as [H0|[body [rest [H35 [Hb Hr]]]]];
    rewrite Ht in *; [now subst s|].
  subst s. cbn [skip_comments]. replace (35 =? 35) with true by reflexivity.
  apply IH.
  - apply skippable_trim_start, skippable_trim_line. now constructor.
  - apply trim_start_idem.
  - unfold trim_start. pose proof (trim_start_matches_length is_whitespace
      (trim_start_matches (fun c => negb (c =? 10)) (35 :: body ++ rest))).
    cbn [trim_start_matches] in *. replace (negb (35 =? 10)) with true in * by reflexivity.
    pose proof (trim_start_matches_length (fun c => negb (c =? 10)) (body ++ rest)).
    cbn [List.length] in Hl. lia.
Qed.

Lemma skip_skippable (s : str) : skippable s -> skip s = [].
Proof.
  intro H. unfold skip. cbv zeta. apply skip_comments_skippable.
  - now apply skippable_trim_start.
  - apply trim_start_idem.
  - lia.
Qed.

Lemma get_backslash_help_some (x : str) : get_backslash_help (92 :: x) <> None.
Proof. unfold get_backslash_help. destruct x; simpl; discriminate. Qed.

Lemma firstn_S_split (A : str) (y : char) (rest : str) :
  firstn (S (List.length A)) (A ++ y :: rest) = A ++ [y].
Proof.
  induction A as [|a A IH]; [reflexivity|].
  change (firstn (S (List.length (a :: A))) ((a :: A) ++ y :: rest))
    with (a :: firstn (S (List.length A)) (A ++ y :: rest)).
  now rewrite IH.
Qed.

Lemma forallb_not_in (q : char) (l : str) :
  forallb (fun x => negb (q =? x)) l = true -> ~ In q l.
Proof.
  intros H Hin. rewrite forallb_forall in H. specialize (H q Hin).
  rewrite N.eqb_refl in H. discriminate.
Qed.

Section LexerTokenTheorems.
Variable is_alphabetic : char -> bool.
Variable is_alphanumeric : char -> bool.
Local Abbreviation consume' := (consume is_alphabetic is_alphanumeric).
Local Abbreviation tokenize_loop' := (tokenize_loop is_alphabetic is_alphanumeric).
Local Abbreviation tokenize' := (tokenize is_alphabetic is_alphanumeric).

Lemma token_facts (input : str) (tok : Token) (sp : Span) :
  In (tok, sp) (tokenize' input) ->
  exists pre consumed post c r len,
    input = pre ++ consumed ++ post /\
    sp = SpanRange (blen pre) (blen pre + blen consumed) /\
    consumed ++ post = c :: r /\
    consume' (c :: r) c = (len, tok) /\
    consumed = firstn len (c :: r).
Proof.
  intro Hin. unfold tokenize in Hin.
  pose proof (tokenize_loop_tokens is_alphabetic is_alphanumeric
                (S (List.length input)) input 0 ltac:(lia)) as H.
  rewrite Forall_forall in H. apply H in Hin. exact Hin.
Qed.

Lemma consume_error_help (c : char) (r : str) (len : nat) (m : ParseErrorMsg) :
  consume' (c :: r) c = (len, ErrorMsg m) ->
  get_parse_error_msg_help (firstn len (c :: r)) m <> None.
Proof.
  intro H.
  destruct (consume_error_msg is_alphabetic is_alphanumeric c r len m H)
    as [[-> _] | [-> | [-> | [Hg | Hb]]]]; try discriminate.
  - apply parse_special_group_hint in Hg.
    repeat (destruct Hg as [<-|Hg]; [cbn [get_parse_error_msg_help];
      try (unfold get_named_capture_help; cbv zeta; destruct (contains _ _));
      try unfold get_pcre_backreference_help; discriminate|]).
    destruct Hg.
  - pose proof (parse_backslash_bounds _ _ _ Hb) as Hlen.
    apply parse_backslash_hint in Hb as [r' [Hcr [-> | [Hm [d [r'' [-> [Hd H2]]]]]]]];
      rewrite Hcr in *.
    + destruct len as [|len]; [lia|]. cbn [firstn get_parse_error_msg_help].
      apply get_backslash_help_some.
    + destruct len as [|[|len]]; [lia|lia|]. cbn [firstn].
      destruct Hm as [-> | [-> | [-> | [-> | ->]]]]; cbn [get_parse_error_msg_help];
        [unfold get_backslash_help_unicode | unfold get_backslash_help_u4
        | unfold get_backslash_help_x2 | unfold get_backslash_gk_help
        | unfold get_backslash_property_help; cbv zeta];
        match goal with |- context [slice_from 2 ?x] =>
          let Hs := fresh "Hs" in
          assert (Hs : slice_from 2 x = Some (firstn len r'')) by (apply slice_from_ascii2; lia);
          rewrite Hs end;
        try (destruct (list_eq_dec _ _ _)); try (destruct (_ || _)); discriminate.
Qed.

(** X9: the diagnostic of every error token the lexer emits, reported at the
    token's span, never panics: [from_parse_error] of
    [LexErrorWithMessage m] at that span returns a diagnostic. *)
Theorem lexer_error_diagnostic_total (kind_to_string : ParseErrorKind -> str)
    (feature_suggestions : bool) (input : str) (m : ParseErrorMsg) (sp : Span)
    (Hin : In (ErrorMsg m, sp) (tokenize' input)) :
  from_parse_error kind_to_string feature_suggestions
    (MkParseError (LexErrorWithMessage m) sp) input <> None.
Proof.
  destruct (token_facts _ _ _ Hin) as [pre [cons [post [c [r [len [Hi [Hsp [Hcp [Hc Hcd]]]]]]]]]].
  subst sp.
  pose proof (consume_error_help c r len m Hc) as Hh. rewrite <- Hcd in Hh.
  assert (Hsl : slice (blen pre) (blen pre + blen cons) input = Some cons)
    by (rewrite Hi; apply slice_mid).
  unfold from_parse_error, error_range. cbn [pe_span span_range]. rewrite Hsl.
  cbv zeta. cbn [pe_kind].
  destruct (get_parse_error_msg_help cons m); [cbn [option_map]; discriminate | contradiction].
Qed.

(** X10: [tokenize] returns no token exactly when the input is only
    whitespace and ['#'] comments. *)
Theorem tokenize_empty_iff (input : str) :
  tokenize' input = [] <-> skippable input.
Proof.
  split.
  - intro H.
    pose proof (tokenize_loop_covers is_alphabetic is_alphanumeric
                  (S (List.length input)) input 0 ltac:(lia)) as Hc.
    unfold tokenize in H. rewrite H in Hc. exact Hc.
  - intro H. unfold tokenize. cbn [tokenize_loop]. rewrite (skip_skippable input H).
    reflexivity.
Qed.

Lemma consume_unclosed (c : char) (r : str) (len : nat) :
  consume' (c :: r) c = (len, ErrorMsg UnclosedString) -> len = List.length (c :: r).
Proof.
  intro H.
  destruct (consume_error_msg is_alphabetic is_alphanumeric c r len _ H)
    as [[_ ->] | [H1 | [H1 | [Hg | Hb]]]]; try discriminate; [reflexivity| |].
  - apply parse_special_group_hint in Hg. simpl in Hg. intuition discriminate.
  - apply parse_backslash_hint in Hb as [r' [_ [H1 | [H1 _]]]]; [discriminate|].
    intuition discriminate.
Qed.

Lemma tokenize_loop_unclosed (fuel : nat) (input : str) (off : N) (sp : Span) :
  (List.length input < fuel)%nat ->
  In (ErrorMsg UnclosedString, sp) (tokenize_loop' fuel input off) ->
  exists a toks, tokenize_loop' fuel input off =
                 toks ++ [(ErrorMsg UnclosedString, SpanRange a (off + blen input))].
Proof.
  revert input off. induction fuel as [|f IH]; intros input off Hlen; [lia|].
  cbn [tokenize_loop].
  destruct (skip_split input) as [p [Hp Hsk]].
  assert (Hoff : off + (blen input - blen (skip input)) = off + blen p).
  { rewrite Hp at 1. rewrite blen_app. lia. }
  rewrite Hoff.
  assert (Hl : (List.length (skip input) <= List.length input)%nat).
  { rewrite Hp at 2. rewrite length_app. lia. }
  destruct (skip input) as [|c rest] eqn:Es; [intros []|].
  pose proof (consume_bounds is_alphabetic is_alphanumeric (c :: rest) c rest eq_refl) as Hb.
  destruct (consume' (c :: rest) c) as [len tok] eqn:Ec. cbn [fst] in Hb.
  intros [Heq | Hin].
  - injection Heq as -> _.
    pose proof (consume_unclosed c rest len Ec) as ->.
    rewrite skipn_all, firstn_all.
    exists (off + blen p), []. cbn [app].
    replace (tokenize_loop' f [] (off + blen p + blen (c :: rest))) with
      (@nil (Token * Span)) by (destruct f; reflexivity).
    rewrite Hp. rewrite blen_app. unfold span_new. do 3 f_equal. lia.
  - destruct (IH (skipn len (c :: rest)) _ ltac:(rewrite length_skipn; lia) Hin)
      as [a [toks Ht]].
    rewrite Ht. exists a, ((tok, span_new (off + blen p) (off + blen p + blen (firstn len (c :: rest)))) :: toks).
    cbn [app]. do 5 f_equal.
    assert (blen (c :: rest) = blen (firstn len (c :: rest)) + blen (skipn len (c :: rest)))
      by (rewrite <- blen_app, firstn_skipn; reflexivity).
    rewrite Hp, blen_app. lia.
Qed.

(** X11: an unclosed string swallows the rest of the input: when [tokenize]
    emits [ErrorMsg UnclosedString], that is its last token and its span ends
    at the end of the input. *)
Theorem unclosed_string_token_last (input : str) (sp : Span)
    (Hin : In (ErrorMsg UnclosedString, sp) (tokenize' input)) :
  exists a toks, tokenize' input =
                 toks ++ [(ErrorMsg UnclosedString, SpanRange a (blen input))].
Proof.
  unfold tokenize in *.
  exact (tokenize_loop_unclosed (S (List.length input)) input 0 sp ltac:(lia) Hin).
Qed.

(** X12: a [String] token spans a quoted string in the source: one in
    single quotes with no single quote inside, or one in double quotes
    whose first unescaped double quote is its closing quote. *)
Theorem string_token_quoted (input : str) (sp : Span)
    (Hin : In (String, sp) (tokenize' input)) :
  exists a b q mid, sp = SpanRange a b /\ slice a b input = Some (q :: mid ++ [q]) /\
    ((q = 39 /\ ~ In 39 mid) \/
     (q = 34 /\ find_unescaped_quote (mid ++ [34]) = Some (List.length mid))).
Proof.
  destruct (token_facts _ _ _ Hin) as [pre [cons [post [c [r [len [Hi [Hsp [Hcp [Hc Hcd]]]]]]]]]].
  assert (Hsl : slice (blen pre) (blen pre + blen cons) input = Some cons)
    by (rewrite Hi; apply slice_mid).
  exists (blen pre), (blen pre + blen cons).
  destruct (consume_string is_alphabetic is_alphanumeric c r len Hc) as [[-> [i [Hf ->]]] | [-> [i [Hf ->]]]].
  - destruct (find_split _ _ _ Hf) as [y [rest [Hs [Hy [Hn Hlen]]]]].
    apply N.eqb_eq in Hy. subst y.
    exists 39, (firstn i r). split; [exact Hsp|]. split.
    + rewrite Hsl, Hcd. replace (i + 2)%nat with (S (S i)) by lia.
      change (firstn (S (S i)) (39 :: r)) with (39 :: firstn (S i) r).
      rewrite Hs at 1. pose proof (firstn_S_split (firstn i r) 39 rest) as F.
      rewrite Hlen in F. now rewrite F.
    + left. split; [reflexivity|]. now apply forallb_not_in.
  - destruct (find_unescaped_quote_split _ _ Hf) as [rest [Hs [Hq Hlen]]].
    exists 34, (firstn i r). split; [exact Hsp|]. split.
    + rewrite Hsl, Hcd. replace (i + 2)%nat with (S (S i)) by lia.
      change (firstn (S (S i)) (34 :: r)) with (34 :: firstn (S i) r).
      rewrite Hs at 1. pose proof (firstn_S_split (firstn i r) 34 rest) as F.
      rewrite Hlen in F. exact (f_equal (fun l => Some (34 :: l)) F).
    + right. split; [reflexivity|]. now rewrite Hlen.
Qed.

(** X13: [Number] and [Identifier] tokens are maximal: a number token is a
    non-empty run of ASCII digits not followed by a digit; an identifier token
    is a letter or ['_'] followed by letters, digits and ['_'], and is not
    followed by one of those. *)
Theorem number_identifier_tokens_maximal (input : str) (tok : Token) (sp : Span)
    (Hin : In (tok, sp) (tokenize' input)) :
  (tok = Number ->
   exists pre ds post, input = pre ++ ds ++ post /\
     sp = SpanRange (blen pre) (blen pre + blen ds) /\
     ds <> [] /\ forallb is_ascii_digit ds = true /\
     match post with d :: _ => is_ascii_digit d = false | [] => True end) /\
  (tok = Identifier ->
   exists pre c ids post, input = pre ++ (c :: ids) ++ post /\
     sp = SpanRange (blen pre) (blen pre + blen (c :: ids)) /\
     (is_alphabetic c || (c =? 95)) = true /\
     forallb (fun x => is_alphanumeric x || (x =? 95)) ids = true /\
     match post with d :: _ => (is_alphanumeric d || (d =? 95)) = false | [] => True end).
Proof.
  destruct (token_facts _ _ _ Hin) as [pre [cons [post [c [r [len [Hi [Hsp [Hcp [Hc Hcd]]]]]]]]]].
  pose proof Hcp as Hpost. rewrite Hcd in Hpost. apply firstn_app_inv in Hpost.
  split; intros ->.
  - destruct (consume_number is_alphabetic is_alphanumeric c r len Hc) as [Hlen Hpos].
    exists pre, cons, post. split; [exact Hi|]. split; [exact Hsp|].
    destruct (count_while_split is_ascii_digit (c :: r)) as [Hall Hnext].
    rewrite <- Hlen in Hall, Hnext. rewrite <- Hcd in Hall. rewrite <- Hpost in Hnext.
    split; [|auto]. rewrite Hcd. destruct len; [lia|]. discriminate.
  - destruct (consume_identifier is_alphabetic is_alphanumeric c r len Hc) as [Hfirst Hlen].
    set (n := count_while (fun x => is_alphanumeric x || (x =? 95)) r) in Hlen.
    exists pre, c, (firstn n r), post.
    assert (Hcons : cons = c :: firstn n r) by (rewrite Hcd, Hlen; reflexivity).
    rewrite <- Hcons. split; [exact Hi|]. split; [exact Hsp|]. split; [exact Hfirst|].
    destruct (count_while_split (fun x => is_alphanumeric x || (x =? 95)) r) as [Hall Hnext].
    fold n in Hall, Hnext. split; [exact Hall|].
    rewrite Hpost, Hlen. exact Hnext.
Qed.
End LexerTokenTheorems.

(** Witnesses of the lexer properties, with ASCII letters as the
    alphabetic characters. *)
Lemma lexer_error_diagnostic_total_witness :
  from_parse_error (fun _ => u "lex error") false
    (MkParseError (LexErrorWithMessage BackslashX2) (SpanRange 2 6)) (u "a \x41") <> None.
Proof.
  apply (lexer_error_diagnostic_total (fun c => (97 <=? c) && (c <=? 122))
           (fun c => (97 <=? c) && (c <=? 122) || is_ascii_digit c)).
  vm_compute. auto.
Defined.

Lemma unclosed_string_token_last_witness :
  exists a toks,
    tokenize (fun c => (97 <=? c) && (c <=? 122))
             (fun c => (97 <=? c) && (c <=? 122) || is_ascii_digit c) (u "a 'bc") =
    toks ++ [(ErrorMsg UnclosedString, SpanRange a (blen (u "a 'bc")))].
Proof.
  apply (unclosed_string_token_last _ _ (u "a 'bc") (SpanRange 2 5)).
  vm_compute. auto.
Defined.

Lemma string_token_quoted_witness :
  exists a b q mid, SpanRange 2 8 = SpanRange a b /\
    slice a b (u "a " ++ [34; 120; 92; 34; 121; 34]) = Some (q :: mid ++ [q]) /\
    ((q = 39 /\ ~ In 39 mid) \/
     (q = 34 /\ find_unescaped_quote (mid ++ [34]) = Some (List.length mid))).
Proof.
  apply (string_token_quoted (fun c => (97 <=? c) && (c <=? 122))
           (fun c => (97 <=? c) && (c <=? 122) || is_ascii_digit c)).
  vm_compute. auto.
Defined.

Lemma number_identifier_tokens_maximal_witness :
  let ia := fun c => (97 <=? c) && (c <=? 122) in
  let ian := fun c => (97 <=? c) && (c <=? 122) || is_ascii_digit c in
  (Number = Number ->
   exists pre ds post, u "ab1 234" = pre ++ ds ++ post /\
     SpanRange 4 7 = SpanRange (blen pre) (blen pre + blen ds) /\
     ds <> [] /\ forallb is_ascii_digit ds = true /\
     match post with d :: _ => is_ascii_digit d = false | [] => True end) /\
  (Number = Identifier ->
   exists pre c ids post, u "ab1 234" = pre ++ (c :: ids) ++ post /\
     SpanRange 4 7 = SpanRange (blen pre) (blen pre + blen (c :: ids)) /\
     (ia c || (c =? 95)) = true /\
     forallb (fun x => ian x || (x =? 95)) ids = true /\
     match post with d :: _ => (ian d || (d =? 95)) = false | [] => True end).
Proof.
  intros ia ian. apply (number_identifier_tokens_maximal ia ian (u "ab1 234") Number (SpanRange 4 7)).
  vm_compute. auto.
Defined.

End PomskyFacts.
